(** * etl.py: MovieLens -> MySQL loader with optional OMDb enrichment

    A shallow embedding of [src/etl.py] and the properties of its
    enrichment and import pipeline.

    - Python [str] values are sequences of Unicode code points.
    - The module globals [OMDB_CALL_COUNT] and [RATE_LIMITED], the cache
      dictionary and the database session are fields of an explicit
      [state]; effectful functions live in a state-and-exception monad.
    - Everything outside the process (the OMDb service, the MySQL server,
      the files, the clock, the operator) is a [World] of oracles.  Each
      effect appends an [event] to a trace, and the oracles are indexed by
      the length of that trace, so that a universally quantified [World]
      covers every behaviour of the environment. *)

From Stdlib Require Import ZArith NArith QArith List String Ascii Lia.
From Stdlib Require Import DecimalString SpecFloat.
From stdpp Require Import base gmap list option.

Local Close Scope Q_scope.
Local Open Scope Z_scope.
Set Warnings "-register-all".

(** ** Python strings *)

(** A character is its code point, a string the list of its characters. *)
Abbreviation char := N (only parsing).
Abbreviation str := (list N) (only parsing).

(** An ASCII literal as a Python string. *)
Definition py (s : string) : str := map N_of_ascii (list_ascii_of_string s).

(** [str(n)] for an integer. *)
Definition str_of_Z (z : Z) : str := py (NilZero.string_of_int (Z.to_int z)).

Definition between (lo hi c : N) : bool := ((lo <=? c) && (c <=? hi))%N.

(** [str.isspace] on one code point, which is also the class [\s] of
    [re] on [str] patterns (CPython's [_PyUnicode_IsWhitespace]). *)
Definition isspace (c : char) : bool :=
  between 9 13 c || between 28 32 c || (c =? 133)%N || (c =? 160)%N
  || (c =? 5760)%N || between 8192 8202 c || (c =? 8232)%N || (c =? 8233)%N
  || (c =? 8239)%N || (c =? 8287)%N || (c =? 12288)%N.

(** The two Unicode digit tables of the Python runtime.  [decimal c] is the
    value of a character of category Nd: these are the characters matched
    by [\d] and accepted by [int()].  [isdigit c] is [str.isdigit] on one
    character; it also holds of digits that [int()] rejects, such as the
    superscript two. *)
Class Unicode := {
  decimal : char -> option N;
  isdigit : char -> bool
}.

(** The tables restricted to the code points below 256, where the digits
    are [0-9] and the superscripts one, two and three. *)
Definition latin1 : Unicode := {|
  decimal c := if between 48 57 c then Some (c - 48)%N else None;
  isdigit c := between 48 57 c || (c =? 178)%N || (c =? 179)%N || (c =? 185)%N
|}.

Fixpoint lstrip (s : str) : str :=
  match s with
  | c :: s' => if isspace c then lstrip s' else s
  | [] => []
  end.

Definition rstrip (s : str) : str := reverse (lstrip (reverse s)).

(** [s.strip()] *)
Definition strip (s : str) : str := rstrip (lstrip s).

Section Digits.
Context `{Unicode}.

Definition is_decimal (c : char) : bool :=
  match decimal c with Some _ => true | None => false end.

Fixpoint int_digits (acc : Z) (s : str) : option Z :=
  match s with
  | [] => Some acc
  | c :: s' =>
      match decimal c with
      | Some d => int_digits (10 * acc + Z.of_N d) s'
      | None => None
      end
  end.

(** The longest string of digits that [int()] converts
    ([sys.get_int_max_str_digits()], from CPython 3.11 on). *)
Definition INT_MAX_STR_DIGITS : nat := 4300.

(** [int(s)] for a string without sign, underscore or surrounding blanks,
    the only kind that reaches [int()] in this program (the argument is
    guarded by [\d{4}] or by [isdigit()]).  [None] is [ValueError]: the
    string is empty, has a character that is no decimal digit, or is
    longer than [int()] accepts. *)
Definition py_int (s : str) : option Z :=
  match s with
  | [] => None
  | _ => if (INT_MAX_STR_DIGITS <? length s)%nat then None else int_digits 0 s
  end.

(** [s.isdigit()] *)
Definition str_isdigit (s : str) : bool :=
  match s with
  | [] => false
  | _ => forallb isdigit s
  end.
End Digits.

(** ** The fragment of [re] the program uses

    A pattern is a sequence of atoms: one character of a class, a greedy
    starred class, or [$].  Matching backtracks as [re] does: a star first
    takes as many characters as it can. *)

Inductive atom :=
| Chr (p : char -> bool)
| Star (p : char -> bool)
| Dollar.

Definition regex := list atom.

(** [$] without [re.MULTILINE]: at the end of the string, or just before a
    newline that ends the string. *)
Definition at_dollar (s : str) : bool :=
  match s with
  | [] => true
  | [c] => (c =? 10)%N
  | _ => false
  end.

Fixpoint star (p : char -> bool) (k : str -> option str) (s : str) : option str :=
  match s with
  | c :: s' =>
      if p c then
        match star p k s' with
        | Some rest => Some rest
        | None => k s
        end
      else k s
  | [] => k []
  end.

(** [re_match r s]: the pattern matched at the start of [s]; the result is
    what is left of [s] after the match. *)
Fixpoint re_match (r : regex) (s : str) : option str :=
  match r with
  | [] => Some s
  | Chr p :: r' =>
      match s with
      | c :: s' => if p c then re_match r' s' else None
      | [] => None
      end
  | Star p :: r' => star p (re_match r') s
  | Dollar :: r' => if at_dollar s then re_match r' s else None
  end.

(** A match object: the text before the match, the match, the text after. *)
Record re_found := { m_before : str; m_group0 : str; m_after : str }.

(** [re.search(r, s)]: the leftmost match. *)
Fixpoint re_search (r : regex) (s : str) : option re_found :=
  match re_match r s with
  | Some rest =>
      Some {| m_before := []; m_group0 := take (length s - length rest) s; m_after := rest |}
  | None =>
      match s with
      | [] => None
      | c :: s' =>
          match re_search r s' with
          | Some m => Some {| m_before := c :: m_before m; m_group0 := m_group0 m; m_after := m_after m |}
          | None => None
          end
      end
  end.

(** [re.sub(r, repl, s)]: every non-overlapping match, left to right, is
    replaced.  [skip] counts the characters of the current match still to
    be dropped.  An empty match is replaced and the scan moves on by one
    character (CPython 3.7 and later); the patterns of this program never
    match the empty string. *)
Fixpoint re_sub_from (r : regex) (repl : str) (skip : nat) (s : str) : str :=
  match skip with
  | S k =>
      match s with
      | [] => []
      | _ :: s' => re_sub_from r repl k s'
      end
  | O =>
      match re_match r s with
      | Some rest =>
          match (length s - length rest)%nat with
          | O =>
              repl ++ match s with
                      | [] => []
                      | c :: s' => c :: re_sub_from r repl 0 s'
                      end
          | S k =>
              repl ++ match s with
                      | [] => []
                      | _ :: s' => re_sub_from r repl k s'
                      end
          end
      | None =>
          match s with
          | [] => []
          | c :: s' => c :: re_sub_from r repl 0 s'
          end
      end
  end.

Definition re_sub (r : regex) (repl : str) (s : str) : str := re_sub_from r repl 0 s.

(** [re.split(r, s)[0]]: the text before the leftmost match, the whole
    string when nothing matches. *)
Definition re_split_0 (r : regex) (s : str) : str :=
  match re_search r s with
  | Some m => m_before m
  | None => s
  end.

Definition lit (a : string) : atom :=
  match py a with
  | c :: _ => Chr (N.eqb c)
  | [] => Chr (fun _ => false)
  end.

(** ** Title normalizer *)

(** A cell of a data frame or any Python value that may stand where a
    title is expected. *)
Inductive pyobj :=
| PyStr (s : str)
| PyNone
| PyInt (z : Z)
| PyFloat (f : spec_float).

Section Normalizer.
Context `{Unicode}.

(** [\d] and [\s*] *)
Definition digit : atom := Chr is_decimal.
Definition spaces : atom := Star isspace.

(** [r"\((\d{4})\)"] *)
Definition YEAR_RE : regex := [lit "("; digit; digit; digit; digit; lit ")"].

(** [r"\s*\(\d{4}\)\s*$"] *)
Definition TAIL_YEAR_RE : regex := [spaces; lit "("; digit; digit; digit; digit; lit ")"; spaces; Dollar].

(** [m.group(1)] of a [YEAR_RE] match: the four characters after the
    opening parenthesis. *)
Definition year_group1 (m : re_found) : str := take 4 (drop 1 (m_group0 m)).

Definition extract_year_from_title (title : pyobj) : option Z :=
  match title with
  | PyStr s =>
      match re_search YEAR_RE s with
      | Some m =>
          match py_int (year_group1 m) with
          | Some year => Some year
          | None => None
          end
      | None => None
      end
  | _ => None
  end.

Definition clean_title_for_query (title : pyobj) : str :=
  match title with
  | PyStr s => strip (re_sub TAIL_YEAR_RE [] s)
  | _ => []
  end.
End Normalizer.

(** ** JSON values

    What [resp.json()] returns; [JNull] is Python's [None], [JObj] a
    [dict] with its keys in insertion order. *)

Inductive json :=
| JNull
| JBool (b : bool)
| JInt (z : Z)
| JFloat (f : spec_float)
| JStr (s : str)
| JArr (l : list json)
| JObj (kv : list (str * json)).

Fixpoint assoc (k : str) (kv : list (str * json)) : option json :=
  match kv with
  | [] => None
  | (k', v) :: kv' => if bool_decide (k' = k) then Some v else assoc k kv'
  end.

(** [bool(v)] *)
Definition json_truthy (v : json) : bool :=
  match v with
  | JNull => false
  | JBool b => b
  | JInt z => negb (z =? 0)
  | JFloat (S754_zero _) => false
  | JFloat _ => true
  | JStr s => match s with [] => false | _ => true end
  | JArr l => match l with [] => false | _ => true end
  | JObj kv => match kv with [] => false | _ => true end
  end.

(** [v is None] *)
Definition is_None (v : json) : bool :=
  match v with JNull => true | _ => false end.

(** [v == "..."] for a string literal *)
Definition eq_str (v : json) (s : str) : bool :=
  match v with JStr s' => bool_decide (s' = s) | _ => false end.

(** ** Exceptions and the state monad *)

(** [KeyboardInterrupt] is not an [Exception]; [MysqlError] is
    [mysql.connector.Error]; [PyError] stands for every other exception
    class derived from [Exception] ([ValueError], [AttributeError], the
    exceptions of [requests], ...). *)
Inductive exn := KeyboardInterrupt | MysqlError | PyError.

Definition is_Exception (e : exn) : bool :=
  match e with KeyboardInterrupt => false | _ => true end.

Definition is_mysql_Error (e : exn) : bool :=
  match e with MysqlError => true | _ => false end.

Definition is_KeyboardInterrupt (e : exn) : bool :=
  match e with KeyboardInterrupt => true | _ => false end.

Definition any_exn (e : exn) : bool := true.

Inductive result (A : Type) :=
| Ok (a : A)
| Raise (e : exn).
Arguments Ok {A} a.
Arguments Raise {A} e.

(** ** Data model *)

(** The dictionary built by [enrich_movie]. *)
Record enrichment := {
  director : json;
  plot : json;
  box_office : json;
  year : option Z;
  imdb_id : json;
  raw : json;
  enriched_at : str
}.

(** The query parameters of a request to the service, without the ones
    that never change ([apikey], [plot], [r], [type]).  [rq_y] is present
    when the [y] parameter is. *)
Inductive request :=
| ByTitle (t : str) (rq_y : option Z)
| BySearch (s : str) (rq_y : option Z)
| ById (i : json).

Inductive http_outcome :=
| HttpRaises (e : exn)
| HttpReply (status_code : Z) (body : option json).

(** A row of [movies.csv].  [row_movieId] is the value of
    [int(row["movieId"])], [None] when the conversion raises. *)
Record movie_csv_row := {
  row_movieId : option Z;
  row_title : pyobj;
  row_genres : pyobj
}.

(** What [float(cell)] does: it raises, it returns a finite number, or it
    returns nan, inf or -inf (an empty cell is read as nan, and [float]
    returns it as it is). *)
Inductive float_cell :=
| FloatRaises
| FloatFinite (q : Q)
| FloatNonFinite.

(** A row of a ratings chunk after [pd.to_datetime]: [r_userId] and
    [r_movieId] hold the value of [int(...)], [None] when it raises;
    [r_rating] is what [float(...)] does; [r_timestamp] is [None] for
    [NaT]. *)
Record rating_csv_row := {
  r_userId : option Z;
  r_movieId : option Z;
  r_rating : float_cell;
  r_timestamp : option Z
}.

(** A tuple of [ratings_data]: (uid, mid, rating, ts_val). *)
Definition rating_tuple : Type := Z * Z * Q * option Z.

Inductive statement :=
| insert_movie_query (movieId : Z) (title genres : pyobj)
| update_enrichment_query (e : enrichment) (movieId : Z)
| insert_rating_query (ratings_data : list rating_tuple)
| show_tables_like_ratings
| rename_sql (ts : str)
| create_sql.

(** ** The relational store *)

Record movie := {
  mv_title : pyobj;
  mv_genres : pyobj;
  mv_enrichment : option enrichment
}.

Record rating := {
  rt_rating : Q;
  rt_timestamp : option Z
}.

(** The two tables, keyed by their unique keys: [movieId] and
    [(userId, movieId)].  The surrogate [id] of a rating is not kept;
    [ratings] is [None] while there is no such table. *)
Record database := {
  movies : gmap Z movie;
  ratings : option (gmap (Z * Z) rating)
}.

(** [INSERT INTO movies ... ON DUPLICATE KEY UPDATE title = VALUES(title),
    genres = VALUES(genres)] *)
Definition upsert_movie (movieId : Z) (title genres : pyobj) (t : gmap Z movie) : gmap Z movie :=
  match t !! movieId with
  | Some old =>
      <[movieId := {| mv_title := title; mv_genres := genres;
                      mv_enrichment := mv_enrichment old |}]> t
  | None =>
      <[movieId := {| mv_title := title; mv_genres := genres; mv_enrichment := None |}]> t
  end.

(** [UPDATE movies SET director=..., ... WHERE movieId=...] *)
Definition update_enrichment (e : enrichment) (movieId : Z) (t : gmap Z movie) : gmap Z movie :=
  match t !! movieId with
  | Some old =>
      <[movieId := {| mv_title := mv_title old; mv_genres := mv_genres old;
                      mv_enrichment := Some e |}]> t
  | None => t
  end.

(** [INSERT INTO ratings ... ON DUPLICATE KEY UPDATE rating = VALUES(rating),
    `timestamp` = IF(VALUES(`timestamp`) IS NOT NULL, VALUES(`timestamp`), `timestamp`)] *)
Definition upsert_rating (r : rating_tuple) (t : gmap (Z * Z) rating) : gmap (Z * Z) rating :=
  let '(userId, movieId, rating, timestamp) := r in
  match t !! (userId, movieId) with
  | Some old =>
      <[(userId, movieId) :=
          {| rt_rating := rating;
             rt_timestamp := match timestamp with
                             | Some ts => Some ts
                             | None => rt_timestamp old
                             end |}]> t
  | None =>
      <[(userId, movieId) := {| rt_rating := rating; rt_timestamp := timestamp |}]> t
  end.

(** The effect of a statement on the tables, [None] when the server
    rejects it because the table it names is not there. *)
Definition run_statement (q : statement) (d : database) : option database :=
  match q with
  | insert_movie_query movieId title genres =>
      Some {| movies := upsert_movie movieId title genres (movies d); ratings := ratings d |}
  | update_enrichment_query e movieId =>
      Some {| movies := update_enrichment e movieId (movies d); ratings := ratings d |}
  | insert_rating_query ratings_data =>
      match ratings d with
      | Some t => Some {| movies := movies d;
                          ratings := Some (foldl (fun t r => upsert_rating r t) t ratings_data) |}
      | None => None
      end
  | show_tables_like_ratings => Some d
  | rename_sql _ =>
      match ratings d with
      | Some _ => Some {| movies := movies d; ratings := None |}
      | None => None
      end
  | create_sql =>
      Some {| movies := movies d;
              ratings := match ratings d with Some t => Some t | None => Some ∅ end |}
  end.

(** Data definition statements commit on their own. *)
Definition is_ddl (q : statement) : bool :=
  match q with
  | rename_sql _ | create_sql => true
  | _ => false
  end.

Inductive event :=
| EvQuery (title : str) (year : option Z)
| EvHttp (rq : request)
| EvSleep
| EvSql (q : statement)
| EvCommit
| EvRollback
| EvClose
| EvSaveCache.

Record state := {
  OMDB_CALL_COUNT : Z;
  RATE_LIMITED : bool;
  cache : gmap str (option enrichment);
  trace : list event;
  db : database;
  db_committed : database;
  cache_file : option (gmap str (option enrichment))
}.

Definition with_count (n : Z) (st : state) : state :=
  {| OMDB_CALL_COUNT := n; RATE_LIMITED := RATE_LIMITED st; cache := cache st;
     trace := trace st; db := db st; db_committed := db_committed st;
     cache_file := cache_file st |}.

Definition with_flag (b : bool) (st : state) : state :=
  {| OMDB_CALL_COUNT := OMDB_CALL_COUNT st; RATE_LIMITED := b; cache := cache st;
     trace := trace st; db := db st; db_committed := db_committed st;
     cache_file := cache_file st |}.

Definition with_cache (c : gmap str (option enrichment)) (st : state) : state :=
  {| OMDB_CALL_COUNT := OMDB_CALL_COUNT st; RATE_LIMITED := RATE_LIMITED st; cache := c;
     trace := trace st; db := db st; db_committed := db_committed st;
     cache_file := cache_file st |}.

Definition with_trace (t : list event) (st : state) : state :=
  {| OMDB_CALL_COUNT := OMDB_CALL_COUNT st; RATE_LIMITED := RATE_LIMITED st; cache := cache st;
     trace := t; db := db st; db_committed := db_committed st;
     cache_file := cache_file st |}.

Definition with_db (x : database) (st : state) : state :=
  {| OMDB_CALL_COUNT := OMDB_CALL_COUNT st; RATE_LIMITED := RATE_LIMITED st; cache := cache st;
     trace := trace st; db := x; db_committed := db_committed st;
     cache_file := cache_file st |}.

Definition with_db_committed (x : database) (st : state) : state :=
  {| OMDB_CALL_COUNT := OMDB_CALL_COUNT st; RATE_LIMITED := RATE_LIMITED st; cache := cache st;
     trace := trace st; db := db st; db_committed := x;
     cache_file := cache_file st |}.

Definition with_cache_file (f : option (gmap str (option enrichment))) (st : state) : state :=
  {| OMDB_CALL_COUNT := OMDB_CALL_COUNT st; RATE_LIMITED := RATE_LIMITED st; cache := cache st;
     trace := trace st; db := db st; db_committed := db_committed st;
     cache_file := f |}.

Definition M (A : Type) : Type := state -> result A * state.

#[export] Instance M_ret : MRet M := fun A a st => (Ok a, st).

#[export] Instance M_bind : MBind M := fun A B f m st =>
  match m st with
  | (Ok a, st') => f a st'
  | (Raise e, st') => (Raise e, st')
  end.

Definition raise {A} (e : exn) : M A := fun st => (Raise e, st).

Definition gets {A} (f : state -> A) : M A := fun st => (Ok (f st), st).

Definition modify (f : state -> state) : M unit := fun st => (Ok tt, f st).

(** [try: m  except <classes> as e: handler e] *)
Definition try_except {A} (m : M A) (classes : exn -> bool) (handler : exn -> M A) : M A :=
  fun st =>
    match m st with
    | (Raise e, st') => if classes e then handler e st' else (Raise e, st')
    | r => r
    end.

(** [try: m  finally: f] *)
Definition try_finally {A} (m : M A) (f : M unit) : M A :=
  fun st =>
    match m st with
    | (r, st') =>
        match f st' with
        | (Ok _, st'') => (r, st'')
        | (Raise e, st'') => (Raise e, st'')
        end
    end.

Definition lift {A} (r : result A) : M A := fun st => (r, st).

Definition emit (e : event) : M unit := modify (fun st => with_trace (e :: trace st) st).

(** The number of effects so far: the index at which the oracles of the
    world are consulted. *)
Definition tick : M nat := gets (fun st => length (trace st)).

(** ** The world outside the process *)

Class World := {
  (** [os.getenv("OMDB_API_KEY")] *)
  OMDB_API_KEY : option str;
  (** the outcome of the [session.get] issued as effect number [n],
      transport retries included *)
  omdb : nat -> request -> http_outcome;
  (** whether the operator interrupts the [time.sleep] issued as effect [n] *)
  sleep_interrupted : nat -> bool;
  (** [datetime.now(...)] read after [n] effects, already formatted *)
  clock : nat -> str;
  (** [mysql.connector.connect(...)] and [conn.cursor()]: the exception
      raised, if any *)
  connect : option exn;
  (** whether the server fails the database operation issued as effect [n];
      the connector then raises [mysql.connector.Error] *)
  mysql_fails : nat -> bool;
  (** whether writing [omdb_cache.json] as effect [n] fails *)
  save_fails : nat -> bool;
  (** [movies.csv], [None] when the file is not there *)
  movies_csv : option (list movie_csv_row);
  (** [ratings.csv] in chunks of 250000 rows, [None] when it is not there *)
  ratings_csv : option (list (list rating_csv_row));
  (** whether the write that fails as effect [n] fails after
      [open(OMDB_CACHE_FILE, "w")] has emptied the file: what is then
      left in it is not JSON *)
  save_truncates : nat -> bool;
  (** the exception, other than [FileNotFoundError], that
      [pd.read_csv("movies.csv")] raises, if any: the file is there
      ([movies_csv] is not [None]) but is empty, cannot be parsed or
      cannot be read; the rows of [movies_csv] then do not matter *)
  movies_csv_raises : option exn;
  (** likewise for [pd.read_csv("ratings.csv", nrows=1)] *)
  ratings_csv_raises : option exn;
  (** the exception that ends the iteration over the chunks of
      [ratings.csv], if any, once the chunks of [ratings_csv] have been
      dealt with: the file is gone since it was looked for, a line
      further down cannot be parsed, the preparation of the next chunk
      fails, the operator interrupts the import *)
  ratings_chunks_raise : option exn
}.

Definition OMDB_DAILY_LIMIT : Z := 1000.

(** [if year:] *)
Definition year_truthy (year : option Z) : bool :=
  match year with
  | Some y => negb (y =? 0)
  | None => false
  end.

(** [if s:] for a string that may be [None] *)
Definition str_truthy (s : option str) : bool :=
  match s with
  | Some (_ :: _) => true
  | _ => false
  end.

(** [v.get(k)]: [AttributeError] unless [v] is a dictionary. *)
Definition py_get (v : json) (k : str) : result json :=
  match v with
  | JObj kv => Ok (default JNull (assoc k kv))
  | _ => Raise PyError
  end.

(** [k in v] for a dictionary [v] *)
Definition has_key (v : json) (k : str) : bool :=
  match v with
  | JObj kv => bool_decide (is_Some (assoc k kv))
  | _ => false
  end.

(** [v[k]] for a dictionary [v] that has the key *)
Definition py_item (v : json) (k : str) : json :=
  match v with
  | JObj kv => default JNull (assoc k kv)
  | _ => JNull
  end.

(** [v[0]]: [IndexError], [KeyError] or [TypeError] unless [v] is a
    non-empty list or string. *)
Definition py_index0 (v : json) : result json :=
  match v with
  | JArr (x :: _) => Ok x
  | JStr (c :: _) => Ok (JStr [c])
  | _ => Raise PyError
  end.

Definition response : Type := Z * option json.

(** [resp.json()]: [ValueError] when the body is not JSON. *)
Definition resp_json (resp : response) : result json :=
  match snd resp with
  | Some v => Ok v
  | None => Raise PyError
  end.

Section Pipeline.
Context `{Unicode} `{World}.

(** [session.get(OMDB_API_URL, params=..., timeout=6)] *)
Definition session_get (rq : request) : M response :=
  n ← tick;
  emit (EvHttp rq);;
  match omdb n rq with
  | HttpRaises e => raise e
  | HttpReply status_code body => mret (status_code, body)
  end.

(** [OMDB_CALL_COUNT += 1] *)
Definition count_call : M unit :=
  modify (fun st => with_count (OMDB_CALL_COUNT st + 1) st).

Definition query_omdb (title : str) (year : option Z) : M json :=
  emit (EvQuery title year);;
  count ← gets OMDB_CALL_COUNT;
  if bool_decide (OMDB_DAILY_LIMIT ≤ count) then
    modify (with_flag true);;
    mret JNull
  else if negb (str_truthy OMDB_API_KEY) then
    mret JNull
  else
    let y := if year_truthy year then year else None in
    try_except
      (resp ← session_get (ByTitle title y);
       count_call;;
       if fst resp =? 401 then
         modify (with_flag true);;
         mret JNull
       else
         data ← lift (resp_json resp);
         r ← lift (py_get data (py "Response"));
         if eq_str r (py "True") then mret data
         else
           (* fallback to search *)
           sresp ← session_get (BySearch title y);
           count_call;;
           sdata ← lift (resp_json sresp);
           r ← lift (py_get sdata (py "Response"));
           if eq_str r (py "True") && has_key sdata (py "Search") then
             first ← lift (py_index0 (py_item sdata (py "Search")));
             imdb_id ← lift (py_get first (py "imdbID"));
             iresp ← session_get (ById imdb_id);
             count_call;;
             idata ← lift (resp_json iresp);
             r ← lift (py_get idata (py "Response"));
             if eq_str r (py "True") then mret idata else mret JNull
           else mret JNull)
      is_Exception
      (fun _ => mret JNull).

(** [None if v in (None, "N/A") else v] *)
Definition na_to_None (v : json) : json :=
  if is_None v || eq_str v (py "N/A") then JNull else v.

(** [int(v) if v and str(v).isdigit() else year]: the text of a positive
    integer is made of digits, that of any other number, of a Boolean, a
    list or a dictionary is not. *)
Definition year_of (v : json) (year : option Z) : result (option Z) :=
  match v with
  | JStr s =>
      if str_isdigit s then
        match py_int s with
        | Some z => Ok (Some z)
        | None => Raise PyError
        end
      else Ok year
  | JInt z => if 0 <? z then Ok (Some z) else Ok year
  | _ => Ok year
  end.

(** The dictionary literal of [enrich_movie]. *)
Definition build_enriched (data : json) (year : option Z) : M enrichment :=
  director ← lift (py_get data (py "Director"));
  plot ← lift (py_get data (py "Plot"));
  box_office ← lift (py_get data (py "BoxOffice"));
  y ← lift (py_get data (py "Year"));
  year' ← lift (year_of y year);
  imdb_id ← lift (py_get data (py "imdbID"));
  now ← tick;
  mret {| director := na_to_None director;
          plot := na_to_None plot;
          box_office := na_to_None box_office;
          year := year';
          imdb_id := imdb_id;
          raw := data;
          enriched_at := clock now |}.

(** [time.sleep(OMDB_SLEEP)] *)
Definition time_sleep : M unit :=
  n ← tick;
  emit EvSleep;;
  if sleep_interrupted n then raise KeyboardInterrupt else mret tt.

(** [cache[key] = v] *)
Definition cache_set (key : str) (v : option enrichment) : M unit :=
  modify (fun st => with_cache (<[key := v]> (cache st)) st).

(** [f"{clean_title}__{year if year else ''}"] *)
Definition cache_key (clean_title : str) (year : option Z) : str :=
  clean_title ++ py "__" ++
    match year with
    | Some y => if year_truthy year then str_of_Z y else []
    | None => []
    end.

(** [r"[:\-–]"]; the en dash is U+2013. *)
Definition SEPARATOR_RE : regex :=
  [Chr (fun c => (c =? 58)%N || (c =? 45)%N || (c =? 8211)%N)].

(** The queries of [enrich_movie] (from [data = None] to the last
    assignment of [data]); the result is the final [data]. *)
Definition enrich_movie_queries (clean_title : str) (year : option Z) : M json :=
  data ← (if year_truthy year then query_omdb clean_title year else mret JNull);
  data ← (if is_None data then query_omdb clean_title None else mret data);
  if is_None data then
    let alt := strip (re_split_0 SEPARATOR_RE clean_title) in
    if str_truthy (Some alt) && negb (bool_decide (alt = clean_title)) then
      first ← query_omdb alt year;
      if json_truthy first then mret first else query_omdb alt None
    else mret data
  else mret data.

(** [enrich_movie(title, cache)]; [cache] is the one dictionary of the
    run, the [cache] field of the state. *)
Definition enrich_movie (title : pyobj) : M (option enrichment) :=
  let year := extract_year_from_title title in
  let clean_title := clean_title_for_query title in
  let key := cache_key clean_title year in
  c ← gets cache;
  match c !! key with
  | Some v => mret v
  | None =>
      if negb (str_truthy OMDB_API_KEY) then
        cache_set key None;;
        mret None
      else
        data ← enrich_movie_queries clean_title year;
        enriched ← (if json_truthy data then
                      e ← build_enriched data year;
                      mret (Some e)
                    else mret None);
        cache_set key enriched;;
        time_sleep;;
        mret enriched
  end.
End Pipeline.

(** ** The database session and the pipeline driver *)

Section Driver.
Context `{Unicode} `{World}.

(** [cursor.execute(q, params)].  A statement that fails leaves the
    tables as they were. *)
Definition cursor_execute (q : statement) : M unit :=
  n ← tick;
  emit (EvSql q);;
  d ← gets db;
  match (if mysql_fails n then None else run_statement q d) with
  | None => raise MysqlError
  | Some d' =>
      if is_ddl q then modify (fun st => with_db_committed d' (with_db d' st))
      else modify (with_db d')
  end.

(** [conn.commit()] *)
Definition conn_commit : M unit :=
  n ← tick;
  emit EvCommit;;
  if mysql_fails n then raise MysqlError
  else modify (fun st => with_db_committed (db st) st).

(** [conn.rollback()] *)
Definition conn_rollback : M unit :=
  n ← tick;
  emit EvRollback;;
  if mysql_fails n then raise MysqlError
  else modify (fun st => with_db (db_committed st) st).

(** [try: cursor.close(); conn.close()  except: pass]; what was not
    committed is lost. *)
Definition close_quietly : M unit :=
  emit EvClose;;
  modify (fun st => with_db (db_committed st) st).

Definition load_cache : M unit :=
  modify (fun st => with_cache (default ∅ (cache_file st)) st).

(** [save_cache(cache)].  The exception of a write that fails is logged.
    The file is as before when it could not be opened; when the write
    fails after the file was opened, what is left is not JSON, which for
    [load_cache] is as good as no file. *)
Definition save_cache : M unit :=
  n ← tick;
  emit EvSaveCache;;
  if save_fails n then
    if save_truncates n then modify (with_cache_file None) else mret tt
  else modify (fun st => with_cache_file (Some (cache st)) st).

Definition recreate_ratings_table_if_requested : M unit :=
  now ← tick;
  let ts := clock now in
  try_except
    (cursor_execute show_tables_like_ratings;;
     d ← gets db;
     (if bool_decide (is_Some (ratings d)) then
        try_except (cursor_execute (rename_sql ts)) is_Exception (fun _ => mret tt)
      else mret tt);;
     cursor_execute create_sql;;
     conn_commit)
    is_Exception
    (fun e => raise e).

(** [limit is not None and total >= limit] *)
Definition limit_reached (limit : option Z) (total : Z) : bool :=
  match limit with
  | Some l => bool_decide (l ≤ total)
  | None => false
  end.

(** The body of the loop over the movies for a row whose [movieId] is an
    integer, from the base upsert to the periodic save of the cache; the
    result is the new [(total, enriched_count)]. *)
Definition load_movie (no_enrich : bool) (movieId : Z) (title genres : pyobj)
    (total enriched_count : Z) : M (Z * Z) :=
  (* insert/update basic movie row (idempotent) *)
  try_except (cursor_execute (insert_movie_query movieId title genres))
    is_mysql_Error (fun _ => mret tt);;
  (* enrichment *)
  enriched ← (if negb no_enrich then
                try_except (enrich_movie title) is_Exception (fun _ => mret None)
              else mret None);
  enriched_count ←
    match enriched with
    | Some e =>
        try_except
          (cursor_execute (update_enrichment_query e movieId);;
           let enriched_count := enriched_count + 1 in
           (if enriched_count mod 50 =? 0 then
              try_except conn_commit is_Exception (fun _ => mret tt)
            else mret tt);;
           mret enriched_count)
          is_mysql_Error (fun _ => mret enriched_count)
    | None => mret enriched_count
    end;
  let total := total + 1 in
  (if total mod 100 =? 0 then save_cache else mret tt);;
  mret (total, enriched_count).

(** The [for _, row in movies_df.iterrows()] loop; the result is
    [(total, enriched_count)]. *)
Fixpoint movie_loop (limit : option Z) (no_enrich : bool) (rows : list movie_csv_row)
    (total enriched_count : Z) : M (Z * Z) :=
  match rows with
  | [] => mret (total, enriched_count)
  | row :: rows' =>
      rate_limited ← gets RATE_LIMITED;
      if rate_limited : bool then mret (total, enriched_count)     (* break *)
      else if limit_reached limit total then mret (total, enriched_count)   (* break *)
      else
        match row_movieId row with
        | None => movie_loop limit no_enrich rows' total enriched_count   (* continue *)
        | Some movieId =>
            counts ← load_movie no_enrich movieId (row_title row) (row_genres row)
                       total enriched_count;
            movie_loop limit no_enrich rows' counts.1 counts.2
        end
  end.

(** One row of a chunk: the tuple appended to [ratings_data] when the
    three conversions return and the rating is a finite number; [None]
    for a bad row (a conversion raises) and for a row of
    [unstorable_row]. *)
Definition rating_row (r : rating_csv_row) : option rating_tuple :=
  uid ← r_userId r;
  mid ← r_movieId r;
  match r_rating r with
  | FloatFinite rating => Some (uid, mid, rating, r_timestamp r)
  | _ => None
  end.

(** A row whose three conversions return with a rating that is nan or
    infinite.  It is no bad row: its tuple is appended to [ratings_data]
    and sent with the others. *)
Definition unstorable_row (r : rating_csv_row) : bool :=
  match r_userId r, r_movieId r, r_rating r with
  | Some _, Some _, FloatNonFinite => true
  | _, _, _ => false
  end.

(** [cursor.executemany(insert_rating_query, ratings_data)] for the
    tuples of a chunk; the statement carries the tuples with a finite
    rating, and [unstorable] says that [ratings_data] has others.  There
    is no value of [DECIMAL(3,2) NOT NULL] for a rating that is nan or
    infinite: the server (in its default strict mode) refuses the
    statement, and with it all the tuples of the chunk.  A statement
    that fails leaves the tables as they were (the rows written before
    the failure are rolled back by the handler of the chunk and are not
    kept here). *)
Definition cursor_executemany (unstorable : bool) (q : statement) : M unit :=
  n ← tick;
  emit (EvSql q);;
  d ← gets db;
  match (if mysql_fails n || unstorable then None else run_statement q d) with
  | None => raise MysqlError
  | Some d' => modify (with_db d')
  end.

(** The [for chunk in pd.read_csv("ratings.csv", chunksize=250000)] loop;
    the result is [total_inserted].  [len(ratings_data)] is the number of
    the tuples with a finite rating wherever the statement succeeds. *)
Fixpoint ratings_loop (chunks : list (list rating_csv_row)) (total_inserted : Z) : M Z :=
  match chunks with
  | [] => mret total_inserted
  | chunk :: chunks' =>
      let ratings_data := omap rating_row chunk in
      let unstorable := existsb unstorable_row chunk in
      if bool_decide (ratings_data = []) && negb unstorable then
        ratings_loop chunks' total_inserted     (* continue *)
      else
        total_inserted ←
          try_except
            (cursor_executemany unstorable (insert_rating_query ratings_data);;
             conn_commit;;
             mret (total_inserted + Z.of_nat (length ratings_data)))
            is_mysql_Error
            (fun _ =>
               try_except conn_rollback any_exn (fun _ => mret tt);;
               mret total_inserted);
        ratings_loop chunks' total_inserted
  end.

(** An exception that the world has in store, if any. *)
Definition raise_if (e : option exn) : M unit :=
  match e with
  | Some e => raise e
  | None => mret tt
  end.

(** [mysql.connector.connect(...)] followed by [conn.cursor()] *)
Definition mysql_connect : M unit :=
  match connect with
  | Some e => raise e
  | None => mret tt
  end.

(** The handler of [KeyboardInterrupt] around the loop over the movies;
    [main] returns after it. *)
Definition on_interrupt : M unit :=
  save_cache;;
  try_finally
    (try_except conn_commit is_Exception (fun _ => mret tt))
    close_quietly.

(** The body of [main] after the loop over the movies: the final save of
    the cache, the ratings, the commit.  An exception that ends the
    iteration over the chunks is not handled: it leaves [main] before
    the last commit. *)
Definition after_movies : M unit :=
  save_cache;;
  match ratings_csv with
  | Some chunks => ratings_loop chunks 0;; raise_if ratings_chunks_raise
  | None => mret tt
  end;;
  try_finally
    (try_except conn_commit is_mysql_Error (fun _ => mret tt))
    close_quietly.

(** The body of [main] from the loop over the movies on, entered with
    the given rows still to come and the given values of [total] and
    [enriched_count]. *)
Definition main_from_movies (limit : option Z) (no_enrich : bool)
    (rows : list movie_csv_row) (total enriched_count : Z) : M unit :=
  finished ←
    try_except
      (movie_loop limit no_enrich rows total enriched_count;; mret true)
      is_KeyboardInterrupt
      (fun _ => on_interrupt;; mret false);
  if negb finished then mret tt else after_movies.

(** [main].  The two early reads of the files handle
    [FileNotFoundError] only (the fields [movies_csv] and [ratings_csv]
    of the world are [None]); any other exception of [pd.read_csv]
    leaves [main]. *)
Definition main (limit : option Z) (no_enrich recreate_ratings : bool) : M unit :=
  connected ← try_except (mysql_connect;; mret true) is_mysql_Error (fun _ => mret false);
  if negb connected then mret tt
  else
    (if recreate_ratings then recreate_ratings_table_if_requested else mret tt);;
    match movies_csv with
    | None => close_quietly
    | Some movies_df =>
        raise_if movies_csv_raises;;
        (* the existence check of ratings.csv *)
        match ratings_csv with
        | Some _ => raise_if ratings_csv_raises
        | None => mret tt
        end;;
        load_cache;;
        main_from_movies limit no_enrich movies_df 0 0
    end.
End Driver.

(** The state of a fresh process: the module globals as initialised at
    import, the cache file and the tables as found. *)
Definition initial_state (file : option (gmap str (option enrichment))) (d : database) : state :=
  {| OMDB_CALL_COUNT := 0; RATE_LIMITED := false; cache := ∅; trace := [];
     db := d; db_committed := d; cache_file := file |}.


(** ** Observations on a trace (the newest event comes first) *)

(** The requests sent to the service. *)
Definition http_calls (t : list event) : list request :=
  omap (fun e => match e with EvHttp rq => Some rq | _ => None end) t.

(** The calls of [query_omdb]. *)
Definition queries (t : list event) : list (list N * option Z) :=
  omap (fun e => match e with EvQuery title year => Some (title, year) | _ => None end) t.

(** The [movieId]s for which the base upsert was sent to the server. *)
Definition movie_upserts (t : list event) : list Z :=
  omap (fun e => match e with
                 | EvSql (insert_movie_query movieId _ _) => Some movieId
                 | _ => None
                 end) t.

(** ** Vocabulary of the properties *)

(** A string of white space. *)
Definition blank (w : str) : Prop := Forall (fun c => isspace c = true) w.

(** "(" ds ")" *)
Definition parenthesized (ds : str) : str := [40%N] ++ ds ++ [41%N].

Section Title_shapes.
Context `{Unicode}.

Definition four_digits (ds : str) : Prop :=
  length ds = 4%nat /\ Forall (fun c => is_decimal c = true) ds.

(** The title has a four-digit year in parentheses somewhere. *)
Definition has_year (s : str) : Prop :=
  exists p ds q, four_digits ds /\ s = p ++ parenthesized ds ++ q.

(** The title ends with a four-digit year in parentheses, white space
    around it aside. *)
Definition ends_with_year (s : str) : Prop :=
  exists pre w1 ds w2,
    blank w1 /\ four_digits ds /\ blank w2 /\ s = pre ++ w1 ++ parenthesized ds ++ w2.
End Title_shapes.

(** The fallback order in the words of the specification: the clean title
    with the year (when there is one), the clean title alone, and then the
    prefix of the clean title before the first [:], [-] or en dash, with
    and without the year. *)

Definition is_separator (c : char) : bool :=
  (c =? 58)%N || (c =? 45)%N || (c =? 8211)%N.

Fixpoint before_first_separator (s : str) : str :=
  match s with
  | [] => []
  | c :: s' => if is_separator c then [] else c :: before_first_separator s'
  end.

Definition fallback_plan (clean_title : str) (year : option Z) : list (list N * option Z) :=
  (if year_truthy year then [(clean_title, year)] else []) ++
  [(clean_title, None)] ++
  (let prefix := strip (before_first_separator clean_title) in
   if bool_decide (prefix <> [] /\ prefix <> clean_title)
   then [(prefix, year); (prefix, None)]
   else []).

Section First_success.
Context `{Unicode} `{World}.

(** The queries of a plan in order, up to the first that succeeds. *)
Fixpoint first_success (plan : list (list N * option Z)) : M json :=
  match plan with
  | [] => mret JNull
  | (title, year) :: plan' =>
      data ← query_omdb title year;
      if is_None data then first_success plan' else mret data
  end.
End First_success.

(** A weakest-precondition reading of [M]: [wp m Q st] says that [m], run
    in [st], ends with a result and a state that satisfy [Q]. *)
Definition wp {A} (m : M A) (Q : result A -> state -> Prop) (st : state) : Prop :=
  Q (m st).1 (m st).2.

(** What any part of a run does to the call counter, the flag and the
    trace: the counter never decreases and stays within the daily limit
    plus two, the flag is never reset, the trace only grows, and once the
    budget is used up no request is sent and the counter stands still. *)
Definition run_step (st st' : state) : Prop :=
  OMDB_CALL_COUNT st <= OMDB_CALL_COUNT st' /\
  (OMDB_CALL_COUNT st <= OMDB_DAILY_LIMIT + 2 -> OMDB_CALL_COUNT st' <= OMDB_DAILY_LIMIT + 2) /\
  (RATE_LIMITED st = true -> RATE_LIMITED st' = true) /\
  exists evs, trace st' = evs ++ trace st /\
    (OMDB_DAILY_LIMIT <= OMDB_CALL_COUNT st ->
       http_calls evs = [] /\ OMDB_CALL_COUNT st' = OMDB_CALL_COUNT st).

(** A step of database or file work: the counter and the flag are left
    alone, no request is sent and no movie is upserted. *)
Definition quiet_step (st st' : state) : Prop :=
  OMDB_CALL_COUNT st' = OMDB_CALL_COUNT st /\
  RATE_LIMITED st' = RATE_LIMITED st /\
  exists evs, trace st' = evs ++ trace st /\ http_calls evs = [] /\ movie_upserts evs = [].

(** What a call of [query_omdb], or a sequence of such calls, guarantees:
    the cache is not touched, the call fails without a request when the
    budget is used up (and sets the flag), only an interrupt of the
    operator leaves it as an exception, and a result other than [None] is
    a dictionary that is not empty. *)
Definition query_post (st : state) (r : result json) (st' : state) : Prop :=
  run_step st st' /\
  cache st' = cache st /\
  (OMDB_DAILY_LIMIT <= OMDB_CALL_COUNT st -> r = Ok JNull /\ RATE_LIMITED st' = true) /\
  (forall e, r = Raise e -> e = KeyboardInterrupt) /\
  (forall v, r = Ok v -> v = JNull \/ json_truthy v = true).

(** [does R E m]: from any state, [m] takes a step of [R], and an
    exception that leaves [m] is one of [E]. *)
Definition does {A} (R : state -> state -> Prop) (E : exn -> Prop) (m : M A) : Prop :=
  forall st, wp m (fun r st' => R st st' /\ forall e, r = Raise e -> E e) st.

Definition no_exn : exn -> Prop := fun _ => False.
Definition only (e0 : exn) : exn -> Prop := fun e => e = e0.

Section Unhandled.
Context `{World}.


(** An exception that ends the iteration over the chunks of
    [ratings.csv]. *)
Definition ends_import (e : exn) : Prop :=
  is_Some ratings_csv /\ ratings_chunks_raise = Some e.

End Unhandled.

(** ** Sample worlds *)

Definition toy_story : movie_csv_row :=
  {| row_movieId := Some 1; row_title := PyStr (py "Toy Story (1995)");
     row_genres := PyStr (py "Animation") |}.


Definition empty_db : database := {| movies := ∅; ratings := Some ∅ |}.

(** The bodies with which the service answers a miss and a used-up key. *)
Definition movie_not_found : json :=
  JObj [(py "Response", JStr (py "False")); (py "Error", JStr (py "Movie not found!"))].

Definition request_limit_reached : json :=
  JObj [(py "Response", JStr (py "False")); (py "Error", JStr (py "Request limit reached!"))].

(** A world with a credential, a server that accepts everything, no
    ratings file and an operator who does not interrupt. *)
Definition calm_world (service : nat -> request -> http_outcome)
    (rows : list movie_csv_row) : World :=
  {| OMDB_API_KEY := Some (py "k");
     omdb := service;
     sleep_interrupted := fun _ => false;
     clock := fun _ => py "2024-01-01T00:00:00+00:00";
     connect := None;
     mysql_fails := fun _ => false;
     save_fails := fun _ => false;
     movies_csv := Some rows;
     ratings_csv := None;
     save_truncates := fun _ => false;
     movies_csv_raises := None;
     ratings_csv_raises := None;
     ratings_chunks_raise := None |}.

(** Every request is answered with 401. *)
Definition unauthorized : nat -> request -> http_outcome :=
  fun _ _ => HttpReply 401 (Some request_limit_reached).

(** The title lookup misses and the search is answered with 401. *)
Definition search_unauthorized : nat -> request -> http_outcome :=
  fun _ rq =>
    match rq with
    | ByTitle _ _ => HttpReply 200 (Some movie_not_found)
    | _ => HttpReply 401 (Some request_limit_reached)
    end.

(** Every request is answered with a miss. *)
Definition nothing_found : nat -> request -> http_outcome :=
  fun _ _ => HttpReply 200 (Some movie_not_found).

(** The operator interrupts the first request. *)
Definition interrupted : nat -> request -> http_outcome :=
  fun _ _ => HttpRaises KeyboardInterrupt.

(** The title lookup misses, the search has a candidate, and the lookup
    of the candidate misses: three requests for one query. *)
Definition three_requests : nat -> request -> http_outcome :=
  fun _ rq =>
    match rq with
    | BySearch _ _ =>
        HttpReply 200
          (Some (JObj [(py "Response", JStr (py "True"));
                       (py "Search", JArr [JObj [(py "imdbID", JStr (py "tt0000001"))]])]))
    | _ => HttpReply 200 (Some movie_not_found)
    end.

(** Movies 1 to [n], each with its number as title. *)
Definition numbered_movies (n : nat) : list movie_csv_row :=
  map (fun i => {| row_movieId := Some (Z.of_nat i);
                   row_title := PyStr (str_of_Z (Z.of_nat i));
                   row_genres := PyNone |}) (seq 1 n).

(** A found movie. *)
Definition toy_story_data : json :=
  JObj [(py "Title", JStr (py "Toy Story")); (py "Year", JStr (py "1995"));
        (py "Director", JStr (py "John Lasseter")); (py "Plot", JStr (py "N/A"));
        (py "imdbID", JStr (py "tt0114709")); (py "Response", JStr (py "True"))].

Definition found : nat -> request -> http_outcome :=
  fun _ _ => HttpReply 200 (Some toy_story_data).


(** A server that fails every statement. *)
Definition failing_server : World :=
  {| OMDB_API_KEY := None;
     omdb := unauthorized;
     sleep_interrupted := fun _ => false;
     clock := fun _ => py "20240101000000";
     connect := None;
     mysql_fails := fun _ => true;
     save_fails := fun _ => false;
     movies_csv := Some [toy_story];
     ratings_csv := None;
     save_truncates := fun _ => false;
     movies_csv_raises := None;
     ratings_csv_raises := None;
     ratings_chunks_raise := None |}.

(** ** Vocabulary of the further properties *)

(** ** Vocabulary of the store *)

(** The unique key of a tuple of [ratings_data]. *)
Definition rating_key (r : rating_tuple) : Z * Z := (r.1.1.1, r.1.1.2).

(** The tuples of a chunk for one key, in the order of the chunk. *)
Definition rows_of (k : Z * Z) (rows : list rating_tuple) : list rating_tuple :=
  filter (fun r => rating_key r = k) rows.

(** What the table holds for a key after the tuples of a chunk were
    upserted in order, [old] being what it held before: the rating of the
    last tuple of the key and the last timestamp of its tuples that is
    not null, the old timestamp when they all are. *)
Definition after_chunk (k : Z * Z) (rows : list rating_tuple) (old : option rating) :
    option rating :=
  match list.last (rows_of k rows) with
  | Some r =>
      Some {| rt_rating := r.1.2;
              rt_timestamp := match list.last (omap snd (rows_of k rows)) with
                              | Some ts => Some ts
                              | None => old ≫= rt_timestamp
                              end |}
  | None => old
  end.

(** A service that cannot be reached: every request raises
    [requests.ConnectionError]. *)
Definition unreachable : nat -> request -> http_outcome :=
  fun _ _ => HttpRaises PyError.

(** Two states that differ in the flag at most. *)
Definition same_but_flag (st1 st2 : state) : Prop :=
  with_flag false st1 = with_flag false st2.

(** A computation that does not read the flag: from two states that
    differ in the flag at most it gives the same result and two states
    that differ in the flag at most. *)
Definition flag_blind {A} (m : M A) : Prop :=
  forall st1 st2, same_but_flag st1 st2 ->
    (m st1).1 = (m st2).1 /\ same_but_flag (m st1).2 (m st2).2.

(** The events of [query_omdb]: the call itself and its requests. *)
Definition is_request_event (e : event) : bool :=
  match e with
  | EvQuery _ _ | EvHttp _ => true
  | _ => false
  end.

(** The events of [enrich_movie]: those of its queries, and the sleep. *)
Definition is_service_event (e : event) : bool :=
  match e with
  | EvQuery _ _ | EvHttp _ | EvSleep => true
  | _ => false
  end.

(** A step that adds only events of one kind to the trace. *)
Definition emits (P : event -> bool) (st st' : state) : Prop :=
  exists evs, trace st' = evs ++ trace st /\ forallb P evs = true.

(** A step of the enrichment: the tables, what is committed of them and
    the cache file are left alone, and only requests and sleeps happen. *)
Definition service_step (st st' : state) : Prop :=
  db st' = db st /\ db_committed st' = db_committed st /\
  cache_file st' = cache_file st /\ emits is_service_event st st'.

(** A step that counts nothing, leaves the cache alone and, while the
    budget is not used up, leaves the flag alone. *)
Definition idle_step (st st' : state) : Prop :=
  OMDB_CALL_COUNT st' = OMDB_CALL_COUNT st /\ cache st' = cache st /\
  (OMDB_CALL_COUNT st < OMDB_DAILY_LIMIT -> RATE_LIMITED st' = RATE_LIMITED st).

(** Any exception. *)
Definition anything : exn -> Prop := fun _ => True.

(** [executemany]: the tuples are upserted in order. *)
Definition upsert_ratings (rows : list rating_tuple) (t : gmap (Z * Z) rating) :
    gmap (Z * Z) rating :=
  foldl (fun t r => upsert_rating r t) t rows.

(** A world in which nothing fails and nobody interrupts, with the given
    files. *)
Definition healthy_world (rows : list movie_csv_row)
    (chunks : option (list (list rating_csv_row))) : World :=
  {| OMDB_API_KEY := None;
     omdb := nothing_found;
     sleep_interrupted := fun _ => false;
     clock := fun _ => py "20240101000000";
     connect := None;
     mysql_fails := fun _ => false;
     save_fails := fun _ => false;
     movies_csv := Some rows;
     ratings_csv := chunks;
     save_truncates := fun _ => false;
     movies_csv_raises := None;
     ratings_csv_raises := None;
     ratings_chunks_raise := None |}.

(** Two chunks of ratings: three good rows, one of them without a
    timestamp, and a row whose rating is a text that [float] refuses. *)
Definition sample_chunks : list (list rating_csv_row) :=
  [ [ {| r_userId := Some 1; r_movieId := Some 1; r_rating := FloatFinite (4 # 1)%Q;
         r_timestamp := Some 964982703 |};
      {| r_userId := Some 1; r_movieId := Some 2; r_rating := FloatRaises;
         r_timestamp := Some 964981247 |} ];
    [ {| r_userId := Some 1; r_movieId := Some 1; r_rating := FloatFinite (9 # 2)%Q;
         r_timestamp := None |};
      {| r_userId := Some 2; r_movieId := Some 1; r_rating := FloatFinite (3 # 1)%Q;
         r_timestamp := Some 964982224 |} ] ].

(** What the loop over the movies gets to of a list when it starts with
    the given [total]: all of it without [--limit], the first
    [limit - total] elements with it. *)
Definition limited {A} (limit : option Z) (total : Z) (l : list A) : list A :=
  match limit with
  | Some n => take (Z.to_nat (n - total)) l
  | None => l
  end.

Section Title_key.
Context `{Unicode}.

End Title_key.

(** A step that sends no base upsert of a movie. *)
Definition upsert_free (st st' : state) : Prop :=
  exists evs, trace st' = evs ++ trace st /\ movie_upserts evs = [].

(** A step that leaves the cache and the cache file alone. *)
Definition cache_kept (st st' : state) : Prop :=
  cache st' = cache st /\ cache_file st' = cache_file st.



(** * Proofs *)


(** ** Strings and patterns *)

Local Arguments N.eqb : simpl never.

Lemma lstrip_blank w : blank w -> lstrip w = [].
Proof. induction 1 as [|c w Hc _ IH]; simpl; [done|]. by rewrite Hc. Qed.

Lemma lstrip_app_blank w t : blank w -> lstrip (w ++ t) = lstrip t.
Proof. induction 1 as [|c w Hc _ IH]; simpl; [done|]. by rewrite Hc. Qed.

Lemma rstrip_app_blank a w : blank w -> rstrip (a ++ w) = rstrip a.
Proof.
  intros Hw. unfold rstrip. rewrite reverse_app.
  rewrite lstrip_app_blank; [done|]. by apply Forall_reverse.
Qed.

Lemma rstrip_snoc a c : isspace c = false -> rstrip (a ++ [c]) = a ++ [c].
Proof.
  intros Hc. unfold rstrip. rewrite reverse_app. simpl. rewrite Hc.
  rewrite reverse_cons, reverse_involutive. done.
Qed.

Lemma lstrip_suffix s : exists w, s = w ++ lstrip s /\ blank w.
Proof.
  induction s as [|c s [w [IH Hw]]]; simpl.
  - exists []. split; [done|constructor].
  - destruct (isspace c) eqn:Hc.
    + exists (c :: w). split; [simpl; by f_equal|by constructor].
    + exists []. split; [done|constructor].
Qed.

Lemma lstrip_head s c s' : lstrip s = c :: s' -> isspace c = false.
Proof.
  induction s as [|x s IH]; simpl; [done|].
  destruct (isspace x) eqn:Hx; [done|]. by intros [= <- _].
Qed.

(** A string is its right-stripped part followed by blanks; the stripped
    part is empty or ends with a character that is not a blank. *)
Lemma rstrip_decompose s :
  exists w, s = rstrip s ++ w /\ blank w /\
    (rstrip s = [] \/ exists a c, rstrip s = a ++ [c] /\ isspace c = false).
Proof.
  unfold rstrip. destruct (lstrip_suffix (reverse s)) as [w [E Hw]].
  exists (reverse w). split_and!.
  - rewrite <- reverse_app, <- E. by rewrite reverse_involutive.
  - by apply Forall_reverse.
  - destruct (lstrip (reverse s)) as [|c t] eqn:El; [by left|right].
    exists (reverse t), c. split; [by rewrite reverse_cons|]. by eapply lstrip_head.
Qed.

Lemma strip_app_blank a w : blank w -> strip (a ++ w) = strip a.
Proof.
  intros Hw. unfold strip. induction a as [|c a IH]; simpl.
  - by rewrite lstrip_blank.
  - destruct (isspace c); [done|].
    by apply (rstrip_app_blank (c :: a) w).
Qed.

Lemma strip_rstrip s : strip (rstrip s) = strip s.
Proof.
  destruct (rstrip_decompose s) as [w [E [Hw _]]].
  rewrite E at 2. by rewrite strip_app_blank.
Qed.

(** The last character that is not a blank is where it is. *)
Lemma last_nonblank_unique a c w a' c' w' :
  isspace c = false -> isspace c' = false -> blank w -> blank w' ->
  a ++ [c] ++ w = a' ++ [c'] ++ w' -> a = a' /\ c = c' /\ w = w'.
Proof.
  intros Hc Hc' Hw Hw' E.
  assert (E2 : a ++ [c] = a' ++ [c']).
  { rewrite <- (rstrip_snoc a c Hc), <- (rstrip_snoc a' c' Hc').
    rewrite <- (rstrip_app_blank (a ++ [c]) w Hw), <- (rstrip_app_blank (a' ++ [c']) w' Hw').
    rewrite <- !app_assoc. by rewrite E. }
  apply app_inj_tail in E2 as [-> ->].
  repeat split. apply app_inv_head in E. by simplify_eq/=.
Qed.

Lemma star_greedy p k w t r :
  Forall (fun c => p c = true) w ->
  match t with [] => True | c :: _ => p c = false end ->
  k t = Some r -> star p k (w ++ t) = Some r.
Proof.
  intros Hw Ht Hk. induction Hw as [|c w Hc _ IH]; simpl.
  - destruct t as [|c t]; simpl; [done|]. by rewrite Ht.
  - by rewrite Hc, IH.
Qed.

Lemma star_sound p k s r :
  star p k s = Some r ->
  exists w t, s = w ++ t /\ Forall (fun c => p c = true) w /\ k t = Some r.
Proof.
  induction s as [|c s IH]; simpl.
  - intros Hk. exists [], []. by repeat split.
  - destruct (p c) eqn:Hc.
    + destruct (star p k s) as [r'|] eqn:Es.
      * intros [= ->]. destruct (IH eq_refl) as (w & t & -> & Hw & Hk).
        exists (c :: w), t. repeat split; [|done]. by constructor.
      * intros Hk. exists [], (c :: s). by repeat split.
    + intros Hk. exists [], (c :: s). by repeat split.
Qed.

Section Patterns.
Context `{Unicode}.

Lemma YEAR_RE_match s rest :
  re_match YEAR_RE s = Some rest <->
  exists ds, four_digits ds /\ s = parenthesized ds ++ rest.
Proof.
  split.
  - destruct s as [|c0 [|c1 [|c2 [|c3 [|c4 [|c5 s]]]]]]; simpl; repeat case_match; try done.
    intros [= ->]. exists [c1; c2; c3; c4].
    repeat match goal with Hx : (_ =? _)%N = true |- _ => apply N.eqb_eq in Hx; subst end.
    split; [split; [done|]|done]. repeat constructor; done.
  - intros (ds & [Hl Hd] & ->).
    destruct ds as [|c1 [|c2 [|c3 [|c4 [|]]]]]; try done.
    inversion_clear Hd as [|? ? H1 Hd1]. inversion_clear Hd1 as [|? ? H2 Hd2].
    inversion_clear Hd2 as [|? ? H3 Hd3]. inversion_clear Hd3 as [|? ? H4 _].
    simpl. unfold digit. simpl. by rewrite H1, H2, H3, H4.
Qed.

Lemma star_dollar_blank w : blank w -> star isspace (re_match [Dollar]) w = Some [].
Proof.
  intros Hw. rewrite <- (app_nil_r w). by apply star_greedy.
Qed.

Lemma TAIL_YEAR_RE_match w1 ds w2 :
  blank w1 -> four_digits ds -> blank w2 ->
  re_match TAIL_YEAR_RE (w1 ++ parenthesized ds ++ w2) = Some [].
Proof.
  intros H1 [Hl Hd] H2. unfold TAIL_YEAR_RE, spaces. simpl re_match.
  apply star_greedy; [done|done|].
  destruct ds as [|c1 [|c2 [|c3 [|c4 [|]]]]]; try done.
  inversion_clear Hd as [|? ? D1 Hd1]. inversion_clear Hd1 as [|? ? D2 Hd2].
  inversion_clear Hd2 as [|? ? D3 Hd3]. inversion_clear Hd3 as [|? ? D4 _].
  simpl. rewrite D1, D2, D3, D4. by apply star_dollar_blank.
Qed.

Lemma TAIL_YEAR_RE_sound s rest :
  re_match TAIL_YEAR_RE s = Some rest ->
  exists w1 ds w2, blank w1 /\ four_digits ds /\ blank w2 /\
    s = w1 ++ parenthesized ds ++ w2.
Proof.
  unfold TAIL_YEAR_RE, spaces. simpl re_match. intros Hm.
  apply star_sound in Hm as (w1 & t & -> & Hw1 & Hk).
  destruct t as [|c0 [|c1 [|c2 [|c3 [|c4 [|c5 t]]]]]]; simpl in Hk; repeat case_match; try done.
  repeat match goal with Hx : (_ =? _)%N = true |- _ => apply N.eqb_eq in Hx; subst end.
  apply star_sound in Hk as (w2 & t' & -> & Hw2 & Hk).
  simpl in Hk. destruct (at_dollar t') eqn:Hd; [|done].
  exists w1, [c1; c2; c3; c4], (w2 ++ t'). split_and!; try done.
  - split; [done|]. repeat constructor; done.
  - apply Forall_app. split; [done|].
    destruct t' as [|x [|]]; [constructor| |done].
    simpl in Hd. apply N.eqb_eq in Hd as ->. by repeat constructor.
Qed.
End Patterns.

(** *** [re.search] and [re.sub] when the place of the match is known *)

Lemma re_search_none r s :
  (forall p q, s = p ++ q -> re_match r q = None) -> re_search r s = None.
Proof.
  induction s as [|c s IH]; intros Hn; simpl.
  - by rewrite (Hn [] []).
  - rewrite (Hn [] (c :: s)) by done.
    rewrite IH; [done|]. intros p q ->. by apply (Hn (c :: p)).
Qed.

Lemma re_search_first r pre t rest :
  (forall p q, pre = p ++ q -> q <> [] -> re_match r (q ++ t) = None) ->
  re_match r t = Some rest ->
  re_search r (pre ++ t)
  = Some {| m_before := pre; m_group0 := take (length t - length rest) t; m_after := rest |}.
Proof.
  induction pre as [|c pre IH]; intros Hn Hm.
  - simpl. destruct t; simpl in *; by rewrite Hm.
  - pose proof (Hn [] (c :: pre) eq_refl ltac:(done)) as E.
    simpl in *. rewrite E.
    rewrite IH; [done| |done]. intros p q -> Hq. by apply (Hn (c :: p)).
Qed.

Lemma re_search_complete r p q rest :
  re_match r q = Some rest -> is_Some (re_search r (p ++ q)).
Proof.
  intros Hm. induction p as [|c p [m IH]]; simpl.
  - destruct q; simpl in *; rewrite Hm; eauto.
  - destruct (re_match r (c :: p ++ q)); [eauto|]. rewrite IH. eauto.
Qed.

Lemma re_sub_from_skip_all r repl s :
  re_sub_from r repl (length s) s = re_sub_from r repl 0 [].
Proof. induction s as [|c s IH]; simpl; [done|]. apply IH. Qed.

Lemma re_sub_none r repl s :
  (forall p q, s = p ++ q -> re_match r q = None) -> re_sub r repl s = s.
Proof.
  unfold re_sub. induction s as [|c s IH]; intros Hn; simpl.
  - by rewrite (Hn [] []).
  - rewrite (Hn [] (c :: s)) by done. f_equal.
    apply IH. intros p q ->. by apply (Hn (c :: p)).
Qed.

(** The match that reaches the end of the string is cut off. *)
Lemma re_sub_cut r a t :
  (forall p q, a = p ++ q -> q <> [] -> re_match r (q ++ t) = None) ->
  re_match r t = Some [] -> t <> [] -> re_match r [] = None ->
  re_sub r [] (a ++ t) = a.
Proof.
  unfold re_sub. induction a as [|c a IH]; intros Hn Hm Ht He.
  - destruct t as [|c t]; [done|]. simpl app.
    cbn [re_sub_from]. rewrite Hm. simpl length. rewrite Nat.sub_0_r.
    simpl. rewrite re_sub_from_skip_all. simpl. by rewrite He.
  - pose proof (Hn [] (c :: a) eq_refl ltac:(done)) as E.
    simpl in *. rewrite E. f_equal.
    apply IH; try done. intros p q -> Hq. by apply (Hn (c :: p)).
Qed.

Section Normalizer_facts.
Context `{Unicode}.

Lemma has_year_search s : has_year s -> is_Some (re_search YEAR_RE s).
Proof.
  intros (p & ds & q & Hd & ->).
  apply re_search_complete with (rest := q). apply YEAR_RE_match. eauto.
Qed.

Lemma ends_with_year_search s : ends_with_year s -> is_Some (re_search TAIL_YEAR_RE s).
Proof.
  intros (pre & w1 & ds & w2 & H1 & Hd & H2 & ->).
  apply re_search_complete with (rest := []). by apply TAIL_YEAR_RE_match.
Qed.

Lemma no_year_no_match s :
  ~ has_year s -> forall p q, s = p ++ q -> re_match YEAR_RE q = None.
Proof.
  intros Hn p q ->. destruct (re_match YEAR_RE q) as [rest|] eqn:E; [|done].
  apply YEAR_RE_match in E as (ds & Hd & ->). destruct Hn. by exists p, ds, rest.
Qed.

Lemma TAIL_YEAR_RE_before q x w1 ds w2 :
  isspace x = false -> blank w1 -> four_digits ds -> blank w2 ->
  re_match TAIL_YEAR_RE ((q ++ [x]) ++ w1 ++ parenthesized ds ++ w2) = None.
Proof.
  intros Hx H1 [Hl Hd] H2.
  destruct (re_match TAIL_YEAR_RE _) as [rest|] eqn:E; [exfalso|done].
  apply TAIL_YEAR_RE_sound in E as (v1 & ds' & v2 & G1 & [Gl Gd] & G2 & E).
  unfold parenthesized in E.
  assert (E' : ((q ++ [x]) ++ w1 ++ [40%N] ++ ds) ++ [41%N] ++ w2
               = (v1 ++ [40%N] ++ ds') ++ [41%N] ++ v2).
  { rewrite <- !app_assoc. rewrite <- !app_assoc in E. exact E. }
  apply last_nonblank_unique in E' as (E' & _ & _); try done.
  assert (E'' : ((q ++ [x]) ++ w1) ++ ([40%N] ++ ds) = v1 ++ ([40%N] ++ ds')).
  { rewrite <- !app_assoc. rewrite <- !app_assoc in E'. exact E'. }
  apply app_inj_2 in E'' as [E'' _]; [|simpl; lia].
  rewrite <- E'' in G1. unfold blank in G1.
  rewrite !Forall_app in G1. destruct G1 as [[_ G1] _].
  inversion G1; congruence.
Qed.

Lemma int_digits_decimal ds acc :
  Forall (fun c => is_decimal c = true) ds -> is_Some (int_digits acc ds).
Proof.
  intros Hd. revert acc. induction Hd as [|c ds Hc _ IH]; intros acc; simpl; [eauto|].
  unfold is_decimal in Hc. destruct (decimal c); [apply IH|done].
Qed.

Lemma py_int_four_digits ds : four_digits ds -> is_Some (py_int ds).
Proof.
  intros [Hl Hd]. unfold py_int. destruct ds as [|c ds]; [done|].
  rewrite Hl. by apply int_digits_decimal.
Qed.

Lemma clean_title_trailing_year pre w1 ds w2 :
  blank w1 -> four_digits ds -> blank w2 ->
  clean_title_for_query (PyStr (pre ++ w1 ++ parenthesized ds ++ w2)) = strip pre.
Proof.
  intros H1 Hd H2. unfold clean_title_for_query.
  destruct (rstrip_decompose pre) as (w0 & E & H0 & Hlast).
  rewrite <- (strip_rstrip pre). f_equal.
  rewrite E at 1. rewrite <- app_assoc.
  replace (w0 ++ w1 ++ parenthesized ds ++ w2)
    with ((w0 ++ w1) ++ parenthesized ds ++ w2) by by rewrite <- app_assoc.
  assert (H01 : blank (w0 ++ w1)) by by apply Forall_app.
  apply re_sub_cut.
  - intros p q Epq Hq.
    destruct Hlast as [Hl|(a & c & Hl & Hc)]; [rewrite Hl in Epq; by destruct p, q|].
    rewrite Hl in Epq.
    assert (exists q', q = q' ++ [c]) as [q' ->].
    { destruct (exists_last Hq) as (q' & c' & ->).
      rewrite app_assoc in Epq. apply app_inj_tail in Epq as [_ ->]. eauto. }
    by apply TAIL_YEAR_RE_before.
  - by apply TAIL_YEAR_RE_match.
  - unfold parenthesized. by destruct w0, w1.
  - done.
Qed.

Lemma clean_title_no_trailing_year s :
  ~ ends_with_year s -> clean_title_for_query (PyStr s) = strip s.
Proof.
  intros Hn. simpl. f_equal. apply re_sub_none. intros p q ->.
  destruct (re_match TAIL_YEAR_RE q) as [rest|] eqn:E; [|done].
  apply TAIL_YEAR_RE_sound in E as (w1 & ds & w2 & H1 & Hd & H2 & ->).
  destruct Hn. by exists p, w1, ds, w2.
Qed.

Lemma extract_year_absent s : ~ has_year s -> extract_year_from_title (PyStr s) = None.
Proof.
  intros Hn. simpl. rewrite re_search_none; [done|]. by apply no_year_no_match.
Qed.

Lemma extract_year_first pre ds post :
  four_digits ds -> ~ has_year (pre ++ [40%N] ++ ds) ->
  is_Some (py_int ds) /\
  extract_year_from_title (PyStr (pre ++ parenthesized ds ++ post)) = py_int ds.
Proof.
  intros Hd Hn.
  assert (Hi : is_Some (py_int ds)).
  { by apply py_int_four_digits. }
  split; [done|]. unfold extract_year_from_title.
  rewrite (re_search_first _ _ _ post).
  - unfold year_group1. cbn [m_group0].
    replace (length (parenthesized ds ++ post) - length post)%nat
      with (length (parenthesized ds)) by (rewrite length_app; lia).
    rewrite take_app_length. unfold parenthesized. simpl. rewrite drop_0.
    destruct Hd as [Hl _]. rewrite <- Hl, take_app_length.
    by destruct Hi as [y ->].
  - intros p q -> Hq.
    destruct (re_match YEAR_RE _) as [rest|] eqn:E; [exfalso|done].
    apply YEAR_RE_match in E as (ds' & [Hl' Hd'] & E).
    apply Hn. exists p, ds', (drop 6 (q ++ [40%N] ++ ds)). split; [done|].
    rewrite <- app_assoc. f_equal.
    assert (Ht : take 6 (q ++ [40%N] ++ ds) = parenthesized ds').
    { transitivity (take 6 (q ++ parenthesized ds ++ post)).
      - unfold parenthesized.
        replace (q ++ ([40%N] ++ ds ++ [41%N]) ++ post)
          with ((q ++ [40%N] ++ ds) ++ [41%N] ++ post) by (by rewrite <- !app_assoc).
        symmetry. apply take_app_le.
        destruct Hd as [Hl _]. destruct q; [done|].
        simpl. rewrite !length_app. simpl. lia.
      - rewrite E. rewrite take_app_le.
        + apply take_ge. unfold parenthesized. rewrite !length_app. simpl. lia.
        + unfold parenthesized. rewrite !length_app. simpl. lia. }
    rewrite <- Ht. by rewrite take_drop.
  - apply YEAR_RE_match. eauto.
Qed.
End Normalizer_facts.

(** ** Title normalization *)

(** C6 (as amended).  For a title that ends with a year in parentheses
    (white space around it aside), [clean_title_for_query] is the text
    before it, stripped.  [extract_year_from_title] is the number of the
    first year in parentheses of the title, wherever it stands, hence that
    of the last one only when no other comes before it; it is [None] when
    the title has none.  The clean title of a title that does not end with
    a year in parentheses is the stripped title.  For a value that is not
    a string the year is [None] and the clean title is empty.  Both are
    functions of the title alone. *)
Theorem title_normalization `{Unicode} :
  (forall pre w1 ds w2, blank w1 -> four_digits ds -> blank w2 ->
     clean_title_for_query (PyStr (pre ++ w1 ++ parenthesized ds ++ w2)) = strip pre) /\
  (forall pre ds post, four_digits ds -> ~ has_year (pre ++ [40%N] ++ ds) ->
     is_Some (py_int ds) /\
     extract_year_from_title (PyStr (pre ++ parenthesized ds ++ post)) = py_int ds) /\
  (forall s, ~ has_year s -> extract_year_from_title (PyStr s) = None) /\
  (forall s, ~ ends_with_year s -> clean_title_for_query (PyStr s) = strip s) /\
  (forall v, (forall s, v <> PyStr s) ->
     extract_year_from_title v = None /\ clean_title_for_query v = []).
Proof.
  split_and!.
  - apply @clean_title_trailing_year.
  - apply @extract_year_first.
  - apply @extract_year_absent.
  - apply @clean_title_no_trailing_year.
  - intros v Hv. destruct v; [by destruct (Hv s)|done..].
Qed.

Lemma title_normalization_witness :
  clean_title_for_query (H:=latin1) (PyStr (py "Toy Story (1995)")) = py "Toy Story" /\
  extract_year_from_title (H:=latin1) (PyStr (py "Toy Story (1995)")) = Some 1995 /\
  extract_year_from_title (H:=latin1) (PyStr (py "Babylon 5")) = None /\
  clean_title_for_query (H:=latin1) (PyStr (py " Babylon 5 ")) = py "Babylon 5" /\
  extract_year_from_title (H:=latin1) PyNone = None.
Proof.
  destruct (title_normalization (H:=latin1)) as (T1 & T2 & T3 & T4 & T5).
  assert (D : four_digits (H:=latin1) (py "1995")) by (split; [done|by repeat constructor]).
  split_and!.
  - apply (T1 (py "Toy Story") (py " ") (py "1995") []); [by repeat constructor|done|constructor].
  - apply (T2 (py "Toy Story ") (py "1995") []); [done|].
    intros Hy. by destruct (has_year_search _ Hy).
  - apply T3. intros Hy. by destruct (has_year_search _ Hy).
  - rewrite T4; [done|]. intros Hy. by destruct (ends_with_year_search _ Hy).
  - apply T5. done.
Defined.

(** C6 as stated fails: a title may end with one year in parentheses and
    have another before it, and the year extracted is then the earlier
    one; and a title that does not end with a year may still have one. *)
Lemma trailing_year_not_extracted :
  let title := py "A (1990) (1995)" in
  let title' := py "B (1995) [restored]" in
  (ends_with_year (H:=latin1) title /\
   clean_title_for_query (H:=latin1) (PyStr title) = py "A (1990)" /\
   extract_year_from_title (H:=latin1) (PyStr title) = Some 1990 /\
   extract_year_from_title (H:=latin1) (PyStr title) <> Some 1995) /\
  (~ ends_with_year (H:=latin1) title' /\
   extract_year_from_title (H:=latin1) (PyStr title') = Some 1995).
Proof.
  split; split_and!; try done.
  - exists (py "A (1990)"), (py " "), (py "1995"), [].
    split_and!; [by repeat constructor| |constructor|done].
    split; [done|by repeat constructor].
  - intros Hy. by destruct (ends_with_year_search _ Hy).
Qed.

(** ** Ratings upsert *)

(** C2.  [insert_rating_query] for a pair that has a row overwrites the
    rating, overwrites the timestamp only when the new one is not null,
    and leaves the other rows alone. *)
Theorem ratings_upsert_conflict_policy (d : database) (t : gmap (Z * Z) rating)
    (userId movieId : Z) (old : rating) (new_rating : Q) (ts : option Z) :
  ratings d = Some t ->
  t !! (userId, movieId) = Some old ->
  exists t',
    run_statement (insert_rating_query [(userId, movieId, new_rating, ts)]) d
    = Some {| movies := movies d; ratings := Some t' |} /\
    t' !! (userId, movieId)
    = Some {| rt_rating := new_rating;
              rt_timestamp := match ts with Some x => Some x | None => rt_timestamp old end |} /\
    forall k, k <> (userId, movieId) -> t' !! k = t !! k.
Proof.
  intros Hd Ho. exists (upsert_rating (userId, movieId, new_rating, ts) t).
  simpl. rewrite Hd. split; [done|]. unfold upsert_rating. rewrite Ho. split.
  - apply lookup_insert_eq.
  - intros k Hk. by rewrite lookup_insert_ne.
Qed.

(** The example of the specification: the row (1, 1, 3.0, T1) upserted
    with (1, 1, 4.5, null) and with (1, 1, 4.5, T2). *)
Lemma ratings_upsert_witness :
  let T1 := 1000000000 in
  let T2 := 1700000000 in
  let t : gmap (Z * Z) rating :=
    {[ (1, 1) := {| rt_rating := (3 # 1)%Q; rt_timestamp := Some T1 |} ]} in
  let d := {| movies := ∅; ratings := Some t |} in
  (exists t',
     run_statement (insert_rating_query [(1, 1, (9 # 2)%Q, None)]) d
     = Some {| movies := ∅; ratings := Some t' |} /\
     t' !! (1, 1) = Some {| rt_rating := (9 # 2)%Q; rt_timestamp := Some T1 |}) /\
  (exists t',
     run_statement (insert_rating_query [(1, 1, (9 # 2)%Q, Some T2)]) d
     = Some {| movies := ∅; ratings := Some t' |} /\
     t' !! (1, 1) = Some {| rt_rating := (9 # 2)%Q; rt_timestamp := Some T2 |}).
Proof.
  intros T1 T2 t d. split.
  - destruct (ratings_upsert_conflict_policy d t 1 1
                {| rt_rating := (3 # 1)%Q; rt_timestamp := Some T1 |} (9 # 2)%Q None
                eq_refl eq_refl) as (t' & E & L & _).
    exists t'. split; [exact E|exact L].
  - destruct (ratings_upsert_conflict_policy d t 1 1
                {| rt_rating := (3 # 1)%Q; rt_timestamp := Some T1 |} (9 # 2)%Q (Some T2)
                eq_refl eq_refl) as (t' & E & L & _).
    exists t'. split; [exact E|exact L].
Defined.

(** ** The calculus of [wp] *)

Lemma wp_ret {A} (a : A) Q st : Q (Ok a) st -> wp (mret a) Q st.
Proof. done. Qed.

Lemma wp_raise {A} e (Q : result A -> state -> Prop) st : Q (Raise e) st -> wp (raise e) Q st.
Proof. done. Qed.

Lemma wp_lift {A} (r : result A) Q st : Q r st -> wp (lift r) Q st.
Proof. done. Qed.

Lemma wp_gets {A} (f : state -> A) Q st : Q (Ok (f st)) st -> wp (gets f) Q st.
Proof. done. Qed.

Lemma wp_modify (f : state -> state) Q st : Q (Ok tt) (f st) -> wp (modify f) Q st.
Proof. done. Qed.

Lemma wp_bind {A B} (m : M A) (f : A -> M B) Q st :
  wp m (fun r st' => match r with Ok a => wp (f a) Q st' | Raise e => Q (Raise e) st' end) st ->
  wp (m ≫= f) Q st.
Proof. unfold wp, mbind, M_bind. by destruct (m st) as [[a|e] st']. Qed.

Lemma wp_try_except {A} (m : M A) (classes : exn -> bool) (h : exn -> M A) Q st :
  wp m (fun r st' =>
          match r with
          | Ok a => Q (Ok a) st'
          | Raise e => if classes e then wp (h e) Q st' else Q (Raise e) st'
          end) st ->
  wp (try_except m classes h) Q st.
Proof.
  unfold wp, try_except. destruct (m st) as [[a|e] st']; simpl; [done|].
  by destruct (classes e).
Qed.

Lemma wp_try_finally {A} (m : M A) (f : M unit) Q st :
  wp m (fun r st' =>
          wp f (fun r2 st'' =>
                  match r2 with Ok _ => Q r st'' | Raise e => Q (Raise e) st'' end) st') st ->
  wp (try_finally m f) Q st.
Proof.
  unfold wp, try_finally. destruct (m st) as [r st']; simpl.
  by destruct (f st') as [[[]|e] st''].
Qed.

Lemma wp_mono {A} (m : M A) (Q Q' : result A -> state -> Prop) st :
  wp m Q st -> (forall r st', Q r st' -> Q' r st') -> wp m Q' st.
Proof. unfold wp. auto. Qed.

Lemma wp_any {A} (m : M A) st : wp m (fun _ _ => True) st.
Proof. done. Qed.

Lemma wp_conj {A} (m : M A) (Q1 Q2 : result A -> state -> Prop) st :
  wp m Q1 st -> wp m Q2 st -> wp m (fun r st' => Q1 r st' /\ Q2 r st') st.
Proof. by split. Qed.

Ltac wp_step :=
  lazymatch goal with
  | |- wp (mbind _ _) _ _ => apply wp_bind
  | |- wp (mret _) _ _ => apply wp_ret
  | |- wp (raise _) _ _ => apply wp_raise
  | |- wp (lift _) _ _ => apply wp_lift
  | |- wp (gets _) _ _ => apply wp_gets
  | |- wp (modify _) _ _ => apply wp_modify
  | |- wp (emit _) _ _ => apply wp_modify
  | |- wp tick _ _ => apply wp_gets
  | |- wp (try_except _ _ _) _ _ => apply wp_try_except
  | |- wp (try_finally _ _) _ _ => apply wp_try_finally
  | |- wp (if ?b then _ else _) _ _ => destruct b eqn:?
  | |- wp (match ?x with _ => _ end) _ _ => destruct x eqn:?
  | |- match ?x with _ => _ end => destruct x eqn:?
  | |- if ?b then _ else _ => destruct b eqn:?
  end.

(** ** [run_step] is a preorder *)

Lemma http_calls_app t1 t2 : http_calls (t1 ++ t2) = http_calls t1 ++ http_calls t2.
Proof. apply omap_app. Qed.

Lemma run_step_refl st : run_step st st.
Proof. repeat split; try done; try lia. by exists []. Qed.

Lemma run_step_trans st1 st2 st3 : run_step st1 st2 -> run_step st2 st3 -> run_step st1 st3.
Proof.
  intros (A1 & A2 & A3 & evs1 & A4 & A5) (B1 & B2 & B3 & evs2 & B4 & B5).
  split_and!; [lia|auto|auto|].
  exists (evs2 ++ evs1). split; [by rewrite B4, A4, app_assoc|].
  intros Hl. destruct (A5 Hl) as [A6 A7]. destruct B5 as [B6 B7]; [lia|].
  rewrite http_calls_app, A6, B6. split; [done|lia].
Qed.

(** A step that leaves the counter and the flag alone and sends no
    request. *)
Lemma run_step_local st st' evs :
  OMDB_CALL_COUNT st' = OMDB_CALL_COUNT st -> RATE_LIMITED st' = RATE_LIMITED st ->
  trace st' = evs ++ trace st -> http_calls evs = [] -> run_step st st'.
Proof.
  intros E1 E2 E3 E4. split_and!; [lia|lia|congruence|]. exists evs. by repeat split.
Qed.

Lemma response_true_truthy data k r s :
  py_get data k = Ok r -> eq_str r s = true -> json_truthy data = true.
Proof.
  destruct data as [| | | | | |kv]; try done. destruct kv as [|[k' v] kv]; [|done].
  by intros [= <-].
Qed.

Lemma not_Exception e : is_Exception e = false -> e = KeyboardInterrupt.
Proof. by destruct e. Qed.

Ltac trace_ext :=
  lazymatch goal with
  | |- exists evs, _ = evs ++ trace _ /\ _ =>
      first [ exists []; split; [reflexivity|]
            | eexists [_]; split; [reflexivity|]
            | eexists [_; _]; split; [reflexivity|]
            | eexists [_; _; _]; split; [reflexivity|]
            | eexists [_; _; _; _]; split; [reflexivity|] ]
  end.

Ltac bool_hyps :=
  repeat match goal with
    | Hx : bool_decide _ = true |- _ => apply bool_decide_eq_true in Hx
    | Hx : bool_decide _ = false |- _ => apply bool_decide_eq_false in Hx
    | Hx : is_Exception _ = false |- _ => apply not_Exception in Hx; subst
    | Hx : _ && _ = true |- _ => apply andb_true_iff in Hx as [? ?]
    end.

Section Queries.
Context `{Unicode} `{World}.

Lemma query_omdb_wp title year st :
  wp (query_omdb title year) (query_post st) st.
Proof.
  unfold query_omdb, session_get, count_call, query_post, run_step.
  repeat wp_step; simpl in *; bool_hyps.
  all: unfold OMDB_DAILY_LIMIT in *.
  all: repeat split; try done; try lia.
  all: try (trace_ext; intros; first [done | lia]).
  all: try (intros ? [= <-]; first [by left | right; by eapply response_true_truthy]).
  all: try (by intros ? [= <-]).
Qed.

Lemma query_omdb_queries title year st :
  wp (query_omdb title year)
     (fun _ st' => exists evs, trace st' = evs ++ trace st /\ queries evs = [(title, year)]) st.
Proof.
  unfold query_omdb, session_get, count_call.
  repeat wp_step; simpl; by trace_ext.
Qed.

(** A later call, seen from an earlier state. *)
Lemma query_post_later st st1 r st2 :
  run_step st st1 -> cache st1 = cache st ->
  query_post st1 r st2 -> query_post st r st2.
Proof.
  intros R1 C1 (R2 & C2 & L2 & E2 & T2).
  split_and!; [by eapply run_step_trans|congruence| |done|done].
  intros Hl. apply L2. destruct R1 as (? & _). lia.
Qed.

Lemma wp_query_then {B} title year (f : json -> M B) Q st :
  (forall r st1, query_post st r st1 ->
     match r with Ok a => wp (f a) Q st1 | Raise e => Q (Raise e) st1 end) ->
  wp (query_omdb title year ≫= f) Q st.
Proof.
  intros Hf. apply wp_bind. eapply wp_mono; [apply query_omdb_wp|]. exact Hf.
Qed.

Lemma enrich_movie_queries_wp clean_title year st :
  wp (enrich_movie_queries clean_title year) (query_post st) st.
Proof.
  unfold enrich_movie_queries.
  assert (Hlast : forall st1 t y, run_step st st1 -> cache st1 = cache st ->
            wp (query_omdb t y) (query_post st) st1).
  { intros st1 t y R1 C1. eapply wp_mono; [apply query_omdb_wp|].
    intros r st2. by apply query_post_later. }
  assert (Hrest : forall data st1,
            query_post st (Ok data) st1 ->
            wp (if is_None data then
                  let alt := strip (re_split_0 SEPARATOR_RE clean_title) in
                  if str_truthy (Some alt) && negb (bool_decide (alt = clean_title)) then
                    first ← query_omdb alt year;
                    if json_truthy first then mret first else query_omdb alt None
                  else mret data
                else mret data) (query_post st) st1).
  { intros data st1 P1. pose proof P1 as (R1 & C1 & _).
    destruct (is_None data); [|by apply wp_ret].
    cbv zeta. destruct (_ && _); [|by apply wp_ret].
    apply wp_query_then. intros [first|e] st2 P2.
    - pose proof P2 as (R2 & C2 & _).
      assert (P2' : query_post st (Ok first) st2) by by eapply query_post_later.
      destruct (json_truthy first); [by apply wp_ret|].
      apply Hlast; [by destruct P2'|congruence].
    - by eapply query_post_later. }
  assert (Hsecond : forall data st1,
            query_post st (Ok data) st1 \/ (data = JNull /\ st1 = st) ->
            wp (if is_None data then query_omdb clean_title None else mret data)
               (fun r st2 => match r with
                             | Ok d => query_post st (Ok d) st2
                             | Raise e => query_post st (Raise e) st2
                             end) st1).
  { intros data st1 [P1|[-> ->]].
    - pose proof P1 as (R1 & C1 & _).
      destruct (is_None data).
      + eapply wp_mono; [by apply Hlast|]. by intros [].
      + by apply wp_ret.
    - simpl. eapply wp_mono; [apply query_omdb_wp|]. by intros []. }
  apply wp_bind. destruct (year_truthy year).
  - eapply wp_mono; [apply query_omdb_wp|]. intros [d1|e] st1 P1; [|done].
    apply wp_bind. eapply wp_mono; [apply Hsecond; by left|].
    intros [d2|e] st2 P2; [|done]. by apply Hrest.
  - apply wp_ret. apply wp_bind. eapply wp_mono; [apply Hsecond; by right|].
    intros [d2|e] st2 P2; [|done]. by apply Hrest.
Qed.
End Queries.

Ltac split4 := split; [|split; [|split]].

Section Enrichment.
Context `{Unicode} `{World}.

Lemma py_get_raises v k e : py_get v k = Raise e -> e = PyError.
Proof. destruct v; simpl; congruence. Qed.

Lemma year_of_raises v year e : year_of v year = Raise e -> e = PyError.
Proof. destruct v; simpl; repeat case_match; congruence. Qed.

Lemma enrich_movie_wp title st :
  let key := cache_key (clean_title_for_query title) (extract_year_from_title title) in
  wp (enrich_movie title)
    (fun r st' =>
       run_step st st' /\
       match cache st !! key with
       | Some v => r = Ok v /\ st' = st
       | None =>
           (cache st' = cache st /\ exists e, r = Raise e)
           \/ (exists v, cache st' = <[key := v]> (cache st) /\
                 (r = Ok v \/ r = Raise KeyboardInterrupt))
       end /\
       (cache st !! key = None ->
        OMDB_DAILY_LIMIT <= OMDB_CALL_COUNT st \/ str_truthy OMDB_API_KEY = false ->
        cache st' = <[key := None]> (cache st) /\
        (r = Ok None \/ r = Raise KeyboardInterrupt)) /\
       (forall e, r = Raise e -> is_mysql_Error e = false)) st.
Proof.
  intros key. unfold enrich_movie. fold key.
  apply wp_bind, wp_gets.
  destruct (cache st !! key) as [v|] eqn:Hc.
  { apply wp_ret. split4; [apply run_step_refl|done|done|done]. }
  destruct (str_truthy OMDB_API_KEY) eqn:Hk; simpl negb; cbv iota.
  2:{ unfold cache_set. repeat wp_step. simpl. split4.
      - by apply (run_step_local _ _ []).
      - right. exists None. split; [done|by left].
      - intros _ _. split; [done|by left].
      - done. }
  apply wp_bind. eapply wp_mono; [apply enrich_movie_queries_wp|].
  intros [data|e] st1 (R1 & C1 & L1 & E1 & T1).
  2:{ rewrite (E1 e eq_refl). split4; [done| | |by intros ? [= <-]].
      - left. split; [done|eauto].
      - intros _ [Hl|Hk']; [|congruence]. by destruct (L1 Hl). }
  assert (Hfin : forall v st2, run_step st st2 -> cache st2 = cache st ->
            (OMDB_DAILY_LIMIT <= OMDB_CALL_COUNT st -> v = None) ->
            wp (cache_set key v;; time_sleep;; mret v)
               (fun r st' =>
                  run_step st st' /\
                  ((cache st' = cache st /\ exists e, r = Raise e)
                   \/ (exists v, cache st' = <[key := v]> (cache st) /\
                         (r = Ok v \/ r = Raise KeyboardInterrupt))) /\
                  (@None (option enrichment) = None ->
                   OMDB_DAILY_LIMIT <= OMDB_CALL_COUNT st \/ true = false ->
                   cache st' = <[key := None]> (cache st) /\
                   (r = Ok None \/ r = Raise KeyboardInterrupt)) /\
                  (forall e, r = Raise e -> is_mysql_Error e = false)) st2).
  { intros v st2 R2 C2 Hv. unfold cache_set, time_sleep.
    repeat wp_step; simpl; rewrite C2.
    all: (split4;
          [ eapply run_step_trans; [exact R2|]; by apply (run_step_local _ _ [EvSleep])
          | right; exists v; split; [done|auto]
          | intros _ [Hl|?]; [|done]; rewrite (Hv Hl); auto
          | by intros ? [= <-] ]). }
  apply wp_bind.
  destruct (json_truthy data) eqn:Ht.
  - unfold build_enriched.
    assert (Hl : ~ OMDB_DAILY_LIMIT <= OMDB_CALL_COUNT st).
    { intros Hl. destruct (L1 Hl) as [[= ->] _]. done. }
    repeat wp_step; simpl.
    all: try (by apply Hfin).
    all: repeat match goal with
           | Hx : py_get _ _ = Raise _ |- _ => apply py_get_raises in Hx; subst
           | Hx : year_of _ _ = Raise _ |- _ => apply year_of_raises in Hx; subst
           end.
    all: split4; [done|left; split; [done|eauto]|intros _ [?|?]; done
                 |by intros ? [= <-]].
  - apply wp_ret. by apply Hfin.
Qed.
End Enrichment.

(** ** The enrichment cache *)

Lemma result_state_eq {A} (m : M A) st r st' :
  (m st).1 = r -> (m st).2 = st' -> m st = (r, st').
Proof. destruct (m st). simpl. congruence. Qed.

(** What [enrich_movie] returns is what the cache then holds. *)
Lemma enrich_movie_returns_cached `{Unicode} `{World} title st r st' :
  enrich_movie title st = (Ok r, st') ->
  cache st' !! cache_key (clean_title_for_query title) (extract_year_from_title title)
  = Some r.
Proof.
  intros E. pose proof (enrich_movie_wp title st) as Hw.
  unfold wp in Hw. rewrite E in Hw. simpl in Hw.
  destruct Hw as (_ & Hm & _).
  destruct (cache st !! _) as [v|] eqn:Hc.
  - destruct Hm as [[= ->] ->]. done.
  - destruct Hm as [[_ [e ?]]|(v & -> & [[= ->]|?])]; try done.
    apply lookup_insert_eq.
Qed.

Lemma enrich_movie_hit `{Unicode} `{World} title st v :
  cache st !! cache_key (clean_title_for_query title) (extract_year_from_title title)
  = Some v ->
  enrich_movie title st = (Ok v, st).
Proof.
  intros Hc. pose proof (enrich_movie_wp title st) as Hw. unfold wp in Hw.
  rewrite Hc in Hw. destruct Hw as (_ & [Hr Hs] & _).
  by apply result_state_eq.
Qed.

(** C3.  Warm-cache idempotence: when the key of a title is in the cache,
    [enrich_movie] returns the cached value (which may be [None]) and
    leaves the whole state as it was, so that no request is sent and the
    cache is unchanged; and the cached value is the result of the earlier
    call that left this cache, whatever the world was then. *)
Theorem warm_cache_idempotence `{Unicode} `{World} title st v :
  cache st !! cache_key (clean_title_for_query title) (extract_year_from_title title)
  = Some v ->
  enrich_movie title st = (Ok v, st) /\
  forall (W0 : World) st0 st1 r,
    enrich_movie (H0:=W0) title st0 = (Ok r, st1) -> cache st1 = cache st -> r = v.
Proof.
  intros Hc. split.
  - by apply enrich_movie_hit.
  - intros W0 st0 st1 r E C.
    apply (enrich_movie_returns_cached (H0:=W0)) in E.
    rewrite C, Hc in E. congruence.
Qed.

Lemma warm_cache_witness :
  let st := with_cache {[ py "Toy Story__1995" := None ]} (initial_state None empty_db) in
  enrich_movie (H:=latin1) (H0:=calm_world found []) (PyStr (py "Toy Story (1995)")) st
  = (Ok None, st).
Proof.
  intros st.
  refine (proj1 (warm_cache_idempotence (H:=latin1) (H0:=calm_world found [])
                   (PyStr (py "Toy Story (1995)")) st None _)).
  reflexivity.
Defined.

(** [build_enriched] reads the answer and the clock and changes nothing. *)
Lemma build_enriched_state `{Unicode} `{World} data year0 st :
  (build_enriched data year0 st).2 = st.
Proof.
  unfold build_enriched, mbind, M_bind, lift, tick, gets, mret, M_ret.
  repeat case_match; by simplify_eq.
Qed.

(** What a call that finds no entry returns: without a credential,
    [None]; with one, the record built from the final answer of the
    queries and the year of the title when this answer is truthy, [None]
    when it is not. *)
Lemma enrich_movie_miss `{Unicode} `{World} title st v :
  let year0 := extract_year_from_title title in
  let clean_title := clean_title_for_query title in
  cache st !! cache_key clean_title year0 = None ->
  (enrich_movie title st).1 = Ok v ->
  if str_truthy OMDB_API_KEY then
    exists data st1,
      enrich_movie_queries clean_title year0 st = (Ok data, st1) /\
      match v with
      | Some e => json_truthy data = true /\ build_enriched data year0 st1 = (Ok e, st1)
      | None => json_truthy data = false
      end
  else v = None.
Proof.
  intros year0 clean_title Hc. unfold enrich_movie. fold year0 clean_title.
  unfold mbind at 1, M_bind at 1, gets. simpl. rewrite Hc.
  destruct (str_truthy OMDB_API_KEY); simpl.
  2:{ unfold cache_set, modify, mbind, M_bind, mret, M_ret. simpl. by intros [= <-]. }
  unfold mbind at 1, M_bind at 1.
  destruct (enrich_movie_queries clean_title year0 st) as [[data|e] st1]; [|done].
  intros Hr. exists data, st1. split; [done|].
  pose proof (build_enriched_state data year0 st1) as Hs.
  unfold cache_set, time_sleep, modify, emit, tick, gets, mbind, M_bind, mret, M_ret, raise
    in Hr.
  destruct (json_truthy data).
  - destruct (build_enriched data year0 st1) as [[e|e] st2]; simpl in *; [|done].
    subst st2. destruct (sleep_interrupted _); [done|]. by injection Hr as <-.
  - simpl in Hr. destruct (sleep_interrupted _); [done|]. by injection Hr as <-.
Qed.

(** C7 (as amended).  A call of [enrich_movie] removes or overwrites no
    entry of the cache and touches no other key than the computed one;
    when it returns, that key is bound to what it returns.  For a key
    that was not in the cache this is [None] when no credential is
    configured, and with a credential it is the enrichment record, built
    from the final answer of the queries and the year of the title, when
    the lookup succeeds (this answer is truthy), and [None] when it
    fails. *)
Theorem cache_entry_invariant `{Unicode} `{World} title st :
  let key := cache_key (clean_title_for_query title) (extract_year_from_title title) in
  let r := (enrich_movie title st).1 in
  let st' := (enrich_movie title st).2 in
  (forall k v, cache st !! k = Some v -> cache st' !! k = Some v) /\
  (forall k, k <> key -> cache st' !! k = cache st !! k) /\
  (forall v, r = Ok v -> cache st' !! key = Some v) /\
  (str_truthy OMDB_API_KEY = false -> cache st !! key = None -> r = Ok None) /\
  (str_truthy OMDB_API_KEY = true -> cache st !! key = None ->
   forall v, r = Ok v ->
     exists data st1,
       enrich_movie_queries (clean_title_for_query title) (extract_year_from_title title) st
       = (Ok data, st1) /\
       match v with
       | Some e =>
           json_truthy data = true /\
           build_enriched data (extract_year_from_title title) st1 = (Ok e, st1)
       | None => json_truthy data = false
       end).
Proof.
  intros key r st'. pose proof (enrich_movie_wp title st) as Hw.
  unfold wp in Hw. fold key r st' in Hw. destruct Hw as (_ & Hm & Hn & _).
  assert (Hbuilt : str_truthy OMDB_API_KEY = true -> cache st !! key = None ->
            forall v, r = Ok v ->
              exists data st1,
                enrich_movie_queries (clean_title_for_query title)
                  (extract_year_from_title title) st = (Ok data, st1) /\
                match v with
                | Some e =>
                    json_truthy data = true /\
                    build_enriched data (extract_year_from_title title) st1 = (Ok e, st1)
                | None => json_truthy data = false
                end).
  { intros Hk Hc v Hr. pose proof (enrich_movie_miss title st v Hc Hr) as Hv.
    cbv zeta in Hv. by rewrite Hk in Hv. }
  destruct (cache st !! key) as [v0|] eqn:Hc.
  - destruct Hm as [Hr Hs]. rewrite Hs. split_and!; try done.
    intros v. rewrite Hr. by intros [= <-].
  - split_and!; [| | | |exact Hbuilt].
    + intros k v Hk. destruct Hm as [[-> _]|(v' & -> & _)]; [done|].
      rewrite lookup_insert_ne; [done|]. intros <-. congruence.
    + intros k Hk. destruct Hm as [[-> _]|(v' & -> & _)]; [done|].
      by rewrite lookup_insert_ne.
    + intros v Hr. destruct Hm as [[_ [e He]]|(v' & -> & [Hv|Hv])]; try congruence.
      rewrite Hr in Hv. injection Hv as ->. apply lookup_insert_eq.
    + intros Hk _. destruct (Hn eq_refl (or_intror Hk)) as [Hc' [Hr|Hr]]; [done|].
      (* without a credential nothing can be interrupted *)
      exfalso. clear -Hk Hc Hr. subst r. unfold enrich_movie in Hr. fold key in Hr.
      unfold mbind, M_bind, gets in Hr. simpl in Hr. rewrite Hc, Hk in Hr. done.
Qed.

Lemma cache_entry_witness :
  let title := PyStr (py "Toy Story (1995)") in
  let st := initial_state None empty_db in
  let run := enrich_movie (H:=latin1) (H0:=failing_server) title st in
  cache run.2 !! py "Toy Story__1995" = Some None.
Proof.
  intros title st run.
  refine (proj1 (proj2 (proj2 (cache_entry_invariant (H:=latin1) (H0:=failing_server)
                                 title st))) None _).
  reflexivity.
Defined.

(** C7 as stated fails: a call that the operator interrupts in its
    request, and a call whose answer has a [Year] that [isdigit()] accepts
    and [int()] rejects, end in an exception before the entry is written. *)
Lemma interrupted_call_not_cached :
  let title := PyStr (py "Toy Story (1995)") in
  let st := initial_state None empty_db in
  let superscript_two :=
    JObj [(py "Response", JStr (py "True")); (py "Year", JStr [178%N])] in
  let run1 := enrich_movie (H:=latin1) (H0:=calm_world interrupted []) title st in
  let run2 := enrich_movie (H:=latin1)
                (H0:=calm_world (fun _ _ => HttpReply 200 (Some superscript_two)) [])
                title st in
  (run1.1 = Raise KeyboardInterrupt /\ cache run1.2 !! py "Toy Story__1995" = None) /\
  (run2.1 = Raise PyError /\ cache run2.2 !! py "Toy Story__1995" = None).
Proof. vm_compute. done. Qed.

(** C9.  With the budget used up, a call for a title that is not in the
    cache sends no request and stores [None] under the key of the title;
    a later run that starts from this cache returns [None] at once,
    whatever its world and its counter; and a call that ends in a genuine
    miss leaves exactly the same cache. *)
Theorem exhausted_budget_caches_miss `{Unicode} `{World} title st :
  let key := cache_key (clean_title_for_query title) (extract_year_from_title title) in
  let r := (enrich_movie title st).1 in
  let st' := (enrich_movie title st).2 in
  cache st !! key = None ->
  OMDB_DAILY_LIMIT <= OMDB_CALL_COUNT st ->
  cache st' = <[key := None]> (cache st) /\
  http_calls (trace st') = http_calls (trace st) /\
  (r = Ok None \/ r = Raise KeyboardInterrupt) /\
  (forall (W1 : World) st1,
     cache st1 = cache st' -> enrich_movie (H0:=W1) title st1 = (Ok None, st1)) /\
  (forall (W1 : World) st1,
     cache st1 = cache st -> (enrich_movie (H0:=W1) title st1).1 = Ok None ->
     cache (enrich_movie (H0:=W1) title st1).2 = cache st').
Proof.
  intros key r st' Hc Hl. pose proof (enrich_movie_wp title st) as Hw.
  unfold wp in Hw. fold key r st' in Hw. destruct Hw as (Hrun & _ & Hn & _).
  destruct (Hn Hc (or_introl Hl)) as [Hc' Hr].
  split_and!; try done.
  - destruct Hrun as (_ & _ & _ & evs & Ht & Hh). destruct (Hh Hl) as [Hh' _].
    by rewrite Ht, http_calls_app, Hh'.
  - intros W1 st1 C1. apply (enrich_movie_hit (H0:=W1)).
    fold key. rewrite C1, Hc'. apply lookup_insert_eq.
  - intros W1 st1 C1 Hr1.
    pose proof (enrich_movie_wp (H0:=W1) title st1) as Hw1. unfold wp in Hw1.
    fold key in Hw1. rewrite C1, Hc, Hr1 in Hw1.
    destruct Hw1 as (_ & [[_ [e ?]]|(v & -> & [[= <-]|?])] & _); done.
Qed.

Lemma exhausted_budget_witness :
  let W := calm_world found [] in
  let title := PyStr (py "Toy Story (1995)") in
  let st := with_count 1000 (initial_state None empty_db) in
  let run := enrich_movie (H:=latin1) (H0:=W) title st in
  cache run.2 = <[py "Toy Story__1995" := None]> (cache st) /\
  http_calls (trace run.2) = http_calls (trace st).
Proof.
  intros W title st run.
  destruct (exhausted_budget_caches_miss (H:=latin1) (H0:=W) title st) as (A & B & _).
  - reflexivity.
  - vm_compute. discriminate.
  - split; [exact A|exact B].
Defined.

(** ** The order of the fallback queries *)

Lemma re_split_0_separator s : re_split_0 SEPARATOR_RE s = before_first_separator s.
Proof.
  unfold re_split_0. induction s as [|c s IH]; [done|].
  cbn [re_search re_match SEPARATOR_RE before_first_separator]. unfold is_separator.
  destruct (_ || _); [done|].
  destruct (re_search SEPARATOR_RE s) as [m|]; simpl in *; by f_equal.
Qed.

Lemma lstrip_nonblank c s : isspace c = false -> lstrip (c :: s) = c :: s.
Proof. intros Hc. simpl. by rewrite Hc. Qed.

Lemma strip_idempotent s : strip (strip s) = strip s.
Proof.
  unfold strip. destruct (lstrip s) as [|c u] eqn:El; [done|].
  pose proof (lstrip_head _ _ _ El) as Hc.
  destruct (rstrip_decompose (c :: u)) as (w & E & Hw & [Hr|(a & x & Hr & Hx)]).
  - rewrite Hr in E. simpl in E. subst w. by inversion Hw; congruence.
  - rewrite Hr. destruct a as [|c' a].
    + simpl. rewrite Hx. unfold rstrip. simpl. by rewrite Hx.
    + assert (c' = c) as ->. { rewrite Hr in E. by injection E. }
      change ((c :: a) ++ [x]) with (c :: (a ++ [x])).
      rewrite lstrip_nonblank by done.
      apply (rstrip_snoc (c :: a) x Hx).
Qed.

Lemma clean_title_stripped `{Unicode} title :
  strip (clean_title_for_query title) = clean_title_for_query title.
Proof. destruct title; simpl; [apply strip_idempotent|done..]. Qed.

Lemma before_first_separator_none s :
  before_first_separator s = s \/ (length (before_first_separator s) < length s)%nat.
Proof.
  induction s as [|c s IH]; simpl; [by left|].
  destruct (is_separator c); simpl; [right; lia|].
  destruct IH as [->|?]; [by left|right; lia].
Qed.

Section Fallback.
Context `{Unicode} `{World}.

Lemma query_omdb_result title year st :
  query_post st (query_omdb title year st).1 (query_omdb title year st).2.
Proof. apply query_omdb_wp. Qed.

Lemma enrich_movie_queries_plan clean_title year st :
  enrich_movie_queries clean_title year st
  = first_success (fallback_plan clean_title year) st.
Proof.
  unfold enrich_movie_queries, fallback_plan.
  rewrite re_split_0_separator.
  set (alt := strip (before_first_separator clean_title)).
  assert (Hcond : str_truthy (Some alt) && negb (bool_decide (alt = clean_title))
                  = bool_decide (alt <> [] /\ alt <> clean_title)).
  { clearbody alt. destruct (decide (alt = [])) as [->|Hne].
    - rewrite (bool_decide_eq_false_2 ([] <> [] /\ _)); [done|]. by intros [? _].
    - assert (str_truthy (Some alt) = true) as -> by by destruct alt.
      destruct (decide (alt = clean_title)) as [E|E].
      + rewrite (bool_decide_eq_true_2 _ E).
        rewrite (bool_decide_eq_false_2 (_ /\ _)); [done|]. by intros [_ ?].
      + rewrite (bool_decide_eq_false_2 _ E).
        by rewrite (bool_decide_eq_true_2 (_ /\ _)). }
  rewrite Hcond. clear Hcond.
  assert (Halt : forall data st1, is_None data = true ->
            (if bool_decide (alt <> [] /\ alt <> clean_title) then
               first ← query_omdb alt year;
               if json_truthy first then mret first else query_omdb alt None
             else mret data) st1
            = first_success
                (if bool_decide (alt <> [] /\ alt <> clean_title)
                 then [(alt, year); (alt, None)] else []) st1).
  { intros data st1 Hd. destruct (bool_decide _).
    - simpl. unfold mbind, M_bind.
      pose proof (query_omdb_result alt year st1) as (_ & _ & _ & _ & T1).
      destruct (query_omdb alt year st1) as [[first|e] st2]; [|done].
      destruct (T1 first eq_refl) as [->|Ht]; simpl.
      + pose proof (query_omdb_result alt None st2) as (_ & _ & _ & _ & T2).
        destruct (query_omdb alt None st2) as [[d|e] st3]; [|done].
        destruct (T2 d eq_refl) as [->|Ht2]; simpl; [done|].
        by destruct d.
      + rewrite Ht. by destruct first.
    - simpl. by destruct data. }
  assert (Hsecond : forall st1,
            (data ← query_omdb clean_title None;
             if is_None data then
               if bool_decide (alt <> [] /\ alt <> clean_title) then
                 first ← query_omdb alt year;
                 if json_truthy first then mret first else query_omdb alt None
               else mret data
             else mret data) st1
            = first_success
                ([(clean_title, None)] ++
                 (if bool_decide (alt <> [] /\ alt <> clean_title)
                  then [(alt, year); (alt, None)] else [])) st1).
  { intros st1. simpl. unfold mbind, M_bind.
    destruct (query_omdb clean_title None st1) as [[d|e] st2]; [|done].
    destruct (is_None d) eqn:Hd; [|done]. by apply Halt. }
  destruct (year_truthy year); simpl app.
  - cbn [first_success]. unfold mbind at 1 2 4, M_bind at 1 2 4.
    destruct (query_omdb clean_title year st) as [[d1|e] st1]; [|done].
    destruct (is_None d1) eqn:Hd1.
    + apply Hsecond.
    + unfold mret, M_ret. by rewrite Hd1.
  - unfold mbind at 1, M_bind at 1. unfold mret at 1, M_ret at 1.
    simpl is_None. cbv iota. apply Hsecond.
Qed.
End Fallback.

Lemma queries_app t1 t2 : queries (t1 ++ t2) = queries t1 ++ queries t2.
Proof. apply omap_app. Qed.

Section Fallback_trace.
Context `{Unicode} `{World}.

Lemma first_success_queries plan st :
  wp (first_success plan)
     (fun _ st' => exists attempted,
        attempted `prefix_of` plan /\
        queries (trace st') = reverse attempted ++ queries (trace st)) st.
Proof.
  revert st. induction plan as [|[t y] plan IH]; intros st; simpl.
  - apply wp_ret. by exists [].
  - apply wp_bind. eapply wp_mono; [apply query_omdb_queries|].
    intros r st1 (evs & Ht & Hq).
    assert (Hone : queries (trace st1) = reverse [(t, y)] ++ queries (trace st)).
    { by rewrite Ht, queries_app, Hq. }
    destruct r as [data|e].
    + destruct (is_None data).
      * eapply wp_mono; [apply IH|]. intros r2 st2 (att & Hp & Hq2).
        exists ((t, y) :: att). split; [by apply prefix_cons|].
        rewrite Hq2, Hone, (reverse_cons att), <- app_assoc. done.
      * apply wp_ret. exists [(t, y)]. split; [|done].
        apply prefix_cons, prefix_nil.
    + exists [(t, y)]. split; [|done]. apply prefix_cons, prefix_nil.
Qed.

Lemma enrich_movie_queries_trace title st :
  exists attempted,
    attempted `prefix_of`
      fallback_plan (clean_title_for_query title) (extract_year_from_title title) /\
    queries (trace (enrich_movie title st).2) = reverse attempted ++ queries (trace st).
Proof.
  change (wp (enrich_movie title)
            (fun _ st' => exists attempted,
               attempted `prefix_of`
                 fallback_plan (clean_title_for_query title) (extract_year_from_title title) /\
               queries (trace st') = reverse attempted ++ queries (trace st)) st).
  unfold enrich_movie. apply wp_bind, wp_gets.
  destruct (cache st !! _); [apply wp_ret; exists []; split; [apply prefix_nil|done]|].
  destruct (negb _).
  { unfold cache_set. repeat wp_step. simpl. exists []. split; [apply prefix_nil|done]. }
  apply wp_bind. unfold wp at 1. rewrite enrich_movie_queries_plan.
  eapply (wp_mono (first_success _)); [apply first_success_queries|].
  intros r st1 (att & Hp & Hq).
  destruct r as [data|e]; [|by exists att].
  unfold build_enriched, cache_set, time_sleep.
  repeat wp_step; simpl; by exists att.
Qed.
End Fallback_trace.

(** C8 (as amended).  The queries of [enrich_movie] follow the fallback
    plan (the clean title with the year when a year other than zero was
    extracted, the clean title alone, then the stripped prefix before the
    first separator, when it is not empty, with the year argument and
    without it), in this order and up to the first that succeeds; no other
    query is issued; and the prefix is in the plan only if it differs from
    the clean title. *)
Theorem fallback_query_order `{Unicode} `{World} title st :
  let clean_title := clean_title_for_query title in
  let year := extract_year_from_title title in
  let plan := fallback_plan clean_title year in
  enrich_movie_queries clean_title year st = first_success plan st /\
  (exists attempted,
     attempted `prefix_of` plan /\
     queries (trace (enrich_movie title st).2) = reverse attempted ++ queries (trace st)) /\
  (before_first_separator clean_title = clean_title ->
   plan = (if year_truthy year then [(clean_title, year)] else []) ++ [(clean_title, None)]).
Proof.
  intros clean_title year plan. split_and!.
  - apply enrich_movie_queries_plan.
  - apply enrich_movie_queries_trace.
  - intros Hp. unfold plan, fallback_plan. rewrite Hp.
    unfold clean_title. rewrite clean_title_stripped.
    rewrite bool_decide_eq_false_2; [by rewrite app_nil_r|]. by intros [_ ?].
Qed.

Lemma fallback_query_order_witness :
  let W := calm_world unauthorized [] in
  let title := PyStr (py "Toy Story (1995)") in
  fallback_plan (clean_title_for_query (H:=latin1) title)
    (extract_year_from_title (H:=latin1) title)
  = [(py "Toy Story", Some 1995); (py "Toy Story", None)].
Proof.
  intros W title.
  refine (proj2 (proj2 (fallback_query_order (H:=latin1) (H0:=W) title
                          (initial_state None empty_db))) _).
  reflexivity.
Defined.

(** C8 as stated fails: the year extracted from "X (0000)" is 0, and the
    first query is the clean title alone, not the clean title with that
    year; and for a title without a year whose queries all fail, the
    prefix is queried twice without a year. *)
Lemma year_zero_query_skipped :
  let st := initial_state None empty_db in
  let title := PyStr (py "X (0000)") in
  let run := enrich_movie (H:=latin1) (H0:=calm_world found []) title st in
  let title' := PyStr (py "Babylon 5: The Gathering") in
  let run' := enrich_movie (H:=latin1) (H0:=calm_world nothing_found []) title' st in
  (extract_year_from_title (H:=latin1) title = Some 0 /\
   queries (trace run.2) = [(py "X", None)] /\
   http_calls (trace run.2) = [ByTitle (py "X") None]) /\
  (extract_year_from_title (H:=latin1) title' = None /\
   queries (trace run'.2)
   = [(py "Babylon 5", None); (py "Babylon 5", None);
      (py "Babylon 5: The Gathering", None)]).
Proof. vm_compute. done. Qed.

(** ** The metadata client *)

(** A 401 to the title lookup sets the flag and ends the call. *)
Lemma query_omdb_title_401 `{World} title year st body :
  OMDB_CALL_COUNT st < OMDB_DAILY_LIMIT ->
  str_truthy OMDB_API_KEY = true ->
  omdb (S (length (trace st))) (ByTitle title (if year_truthy year then year else None))
  = HttpReply 401 body ->
  let run := query_omdb title year st in
  run.1 = Ok JNull /\ RATE_LIMITED run.2 = true /\
  http_calls (trace run.2)
  = ByTitle title (if year_truthy year then year else None) :: http_calls (trace st).
Proof.
  intros Hl Hk Ho. unfold query_omdb, session_get, count_call.
  unfold mbind, M_bind, try_except, emit, modify, gets, tick, mret, M_ret. simpl.
  rewrite bool_decide_eq_false_2 by lia. rewrite Hk. simpl. rewrite Ho. simpl. done.
Qed.

(** C5, at the input where the code departs from it: the title lookup
    misses, the search is answered with 401, and [query_omdb] returns
    [None] with the flag still unset. *)
Theorem search_401_leaves_flag_unset :
  let run := query_omdb (H0:=calm_world search_unauthorized [])
               (py "Toy Story") (Some 1995) (initial_state None empty_db) in
  run.1 = Ok JNull /\ RATE_LIMITED run.2 = false /\
  http_calls (trace run.2)
  = [BySearch (py "Toy Story") (Some 1995); ByTitle (py "Toy Story") (Some 1995)].
Proof. vm_compute. done. Qed.

(** ** Steps of the driver *)

Lemma movie_upserts_app t1 t2 : movie_upserts (t1 ++ t2) = movie_upserts t1 ++ movie_upserts t2.
Proof. apply omap_app. Qed.

Lemma run_step_preorder : PreOrder run_step.
Proof. split; [intros st; apply run_step_refl|intros a b c; apply run_step_trans]. Qed.

Lemma quiet_step_preorder : PreOrder quiet_step.
Proof.
  split.
  - intros st. repeat split. by exists [].
  - intros a b c (A1 & A2 & e1 & A3 & A4 & A5) (B1 & B2 & e2 & B3 & B4 & B5).
    split_and!; [congruence..|]. exists (e2 ++ e1).
    rewrite B3, A3, app_assoc, http_calls_app, movie_upserts_app, A4, A5, B4, B5. done.
Qed.

#[local] Existing Instance run_step_preorder.
#[local] Existing Instance quiet_step_preorder.

Lemma quiet_run_step st st' : quiet_step st st' -> run_step st st'.
Proof. intros (A1 & A2 & evs & A3 & A4 & _). by eapply run_step_local. Qed.

Section Does.
Context {R : state -> state -> Prop} `{!PreOrder R}.

Lemma does_ret {A} E (a : A) : does R E (mret a).
Proof. intros st. apply wp_ret. split; [reflexivity|done]. Qed.

Lemma does_bind {A B} E (m : M A) (f : A -> M B) :
  does R E m -> (forall a, does R E (f a)) -> does R E (m ≫= f).
Proof.
  intros Hm Hf st. apply wp_bind. eapply wp_mono; [apply Hm|].
  intros [a|e] st1 [R1 E1].
  - eapply wp_mono; [apply Hf|]. intros r st2 [R2 E2]. split; [by etrans|done].
  - split; [done|]. intros e' [= <-]. by apply E1.
Qed.

Lemma does_try_except {A} E0 E (m : M A) (classes : exn -> bool) (h : exn -> M A) :
  does R E0 m ->
  (forall e, E0 e -> if classes e then does R E (h e) else E e) ->
  does R E (try_except m classes h).
Proof.
  intros Hm Hh st. apply wp_try_except. eapply wp_mono; [apply Hm|].
  intros [a|e] st1 [R1 E1]; [done|].
  specialize (Hh e (E1 e eq_refl)). destruct (classes e).
  - eapply wp_mono; [apply Hh|]. intros r st2 [R2 E2]. split; [by etrans|done].
  - split; [done|]. by intros e' [= <-].
Qed.

Lemma does_try_finally {A} E (m : M A) (f : M unit) :
  does R E m -> does R E f -> does R E (try_finally m f).
Proof.
  intros Hm Hf st. apply wp_try_finally. eapply wp_mono; [apply Hm|].
  intros r st1 [R1 E1]. eapply wp_mono; [apply Hf|].
  intros [[]|e] st2 [R2 E2]; (split; [by etrans|]); [done|].
  intros e' [= <-]. by apply E2.
Qed.

Lemma does_weaken {A} (E E' : exn -> Prop) (m : M A) :
  does R E m -> (forall e, E e -> E' e) -> does R E' m.
Proof.
  intros Hm HE st. eapply wp_mono; [apply Hm|]. intros r st' [R1 E1].
  split; [done|]. intros e He. apply HE. by apply E1.
Qed.
End Does.

Lemma does_quiet_run {A} E (m : M A) : does quiet_step E m -> does run_step E m.
Proof.
  intros Hm st. eapply wp_mono; [apply Hm|]. intros r st' [R1 E1].
  split; [by apply quiet_run_step|done].
Qed.

Section Driver_steps.
Context `{Unicode} `{World}.

Lemma cursor_execute_does q :
  movie_upserts [EvSql q] = [] -> does quiet_step (only MysqlError) (cursor_execute q).
Proof.
  intros Hq st. unfold cursor_execute, quiet_step, only.
  repeat wp_step; simpl; (split; [|by intros ? [= <-]]); repeat split;
    by exists [EvSql q].
Qed.

Lemma insert_movie_does movieId title genres :
  does run_step (only MysqlError) (cursor_execute (insert_movie_query movieId title genres)).
Proof.
  intros st. unfold cursor_execute, only.
  repeat wp_step; simpl; (split; [|by intros ? [= <-]]);
    by eapply (run_step_local _ _ [_]).
Qed.

Lemma conn_commit_does : does quiet_step (only MysqlError) conn_commit.
Proof.
  intros st. unfold conn_commit, quiet_step, only.
  repeat wp_step; simpl; (split; [|by intros ? [= <-]]); repeat split;
    by exists [EvCommit].
Qed.

Lemma conn_rollback_does : does quiet_step (only MysqlError) conn_rollback.
Proof.
  intros st. unfold conn_rollback, quiet_step, only.
  repeat wp_step; simpl; (split; [|by intros ? [= <-]]); repeat split;
    by exists [EvRollback].
Qed.

Lemma close_quietly_does E : does quiet_step E close_quietly.
Proof.
  intros st. unfold close_quietly, quiet_step.
  repeat wp_step; simpl. split; [|done]. repeat split. by exists [EvClose].
Qed.

Lemma save_cache_does E : does quiet_step E save_cache.
Proof.
  intros st. unfold save_cache, quiet_step.
  repeat wp_step; simpl; (split; [|done]); repeat split; by exists [EvSaveCache].
Qed.

Lemma load_cache_does E : does quiet_step E load_cache.
Proof.
  intros st. unfold load_cache, quiet_step.
  repeat wp_step; simpl. split; [|done]. repeat split. by exists [].
Qed.

Lemma enrich_movie_does title :
  does run_step (fun e => is_mysql_Error e = false) (enrich_movie title).
Proof.
  intros st. eapply wp_mono; [apply enrich_movie_wp|].
  intros r st' (R1 & _ & _ & E1). done.
Qed.
End Driver_steps.

Lemma does_gets {R : state -> state -> Prop} `{!PreOrder R} {A} E (f : state -> A) :
  does R E (gets f).
Proof. intros st. apply wp_gets. split; [reflexivity|done]. Qed.

Section Driver_loops.
Context `{Unicode} `{World}.

(** The body of the loop after the base upsert. *)
Lemma after_upsert_does no_enrich movieId title total enriched_count :
  does run_step (only KeyboardInterrupt)
    (enriched ← (if negb no_enrich then
                   try_except (enrich_movie title) is_Exception (fun _ => mret None)
                 else mret None);
     enriched_count ←
       match enriched with
       | Some e =>
           try_except
             (cursor_execute (update_enrichment_query e movieId);;
              let enriched_count := enriched_count + 1 in
              (if enriched_count mod 50 =? 0 then
                 try_except conn_commit is_Exception (fun _ => mret tt)
               else mret tt);;
              mret enriched_count)
             is_mysql_Error (fun _ => mret enriched_count)
       | None => mret enriched_count
       end;
     let total := total + 1 in
     (if total mod 100 =? 0 then save_cache else mret tt);;
     mret (total, enriched_count)).
Proof.
  apply does_bind.
  { destruct (negb no_enrich); [|apply does_ret].
    eapply does_try_except; [apply enrich_movie_does|].
    intros [] He; simpl; [done|done|apply does_ret]. }
  intros enriched. apply does_bind.
  { destruct enriched as [e|]; [|apply does_ret].
    eapply (does_try_except (only MysqlError)).
    - apply does_bind; [by apply does_quiet_run, cursor_execute_does|].
      intros _. apply does_bind; [|intros; apply does_ret].
      destruct (_ =? _); [|apply does_ret].
      eapply does_try_except; [apply does_quiet_run, conn_commit_does|].
      intros e' ->. simpl. apply does_ret.
    - intros e' ->. simpl. apply does_ret. }
  intros enriched_count'. apply does_bind; [|intros; apply does_ret].
  destruct (_ =? _); [apply does_quiet_run, save_cache_does|apply does_ret].
Qed.

Lemma load_movie_does no_enrich movieId title genres total enriched_count :
  does run_step (only KeyboardInterrupt)
    (load_movie no_enrich movieId title genres total enriched_count).
Proof.
  unfold load_movie. apply does_bind; [|intros _; apply after_upsert_does].
  eapply does_try_except; [apply insert_movie_does|].
  intros e ->. simpl. apply does_ret.
Qed.


Lemma movie_loop_does limit no_enrich rows total enriched_count :
  does run_step (only KeyboardInterrupt)
    (movie_loop limit no_enrich rows total enriched_count).
Proof.
  revert total enriched_count.
  induction rows as [|row rows IH]; intros total enriched_count; simpl.
  { apply does_ret. }
  apply does_bind; [apply does_gets|]. intros rate_limited.
  destruct rate_limited; [apply does_ret|].
  destruct (limit_reached limit total); [apply does_ret|].
  destruct (row_movieId row) as [movieId|]; [|apply IH].
  apply does_bind; [apply load_movie_does|]. intros counts. apply IH.
Qed.

Lemma cursor_executemany_does unstorable q :
  movie_upserts [EvSql q] = [] ->
  does quiet_step (only MysqlError) (cursor_executemany unstorable q).
Proof.
  intros Hq st. unfold cursor_executemany, quiet_step, only.
  repeat wp_step; simpl; (split; [|by intros ? [= <-]]); repeat split;
    by exists [EvSql q].
Qed.

Lemma ratings_loop_does chunks total_inserted :
  does quiet_step no_exn (ratings_loop chunks total_inserted).
Proof.
  revert total_inserted.
  induction chunks as [|chunk chunks IH]; intros total_inserted; simpl.
  { apply does_ret. }
  destruct (bool_decide _ && negb _); [apply IH|].
  apply does_bind; [|intros; apply IH].
  eapply (does_try_except (only MysqlError)).
  - apply does_bind; [by apply cursor_executemany_does|]. intros _.
    apply does_bind; [apply conn_commit_does|]. intros _. apply does_ret.
  - intros e ->. simpl. apply does_bind; [|intros; apply does_ret].
    eapply does_try_except; [apply conn_rollback_does|].
    intros e ->. simpl. apply does_ret.
Qed.

Lemma raise_if_does {R : state -> state -> Prop} `{!PreOrder R} e0 :
  does R (fun e => e0 = Some e) (raise_if e0).
Proof.
  intros st. destruct e0 as [e|]; simpl; [apply wp_raise|apply wp_ret];
    (split; [reflexivity|]); [by intros ? [= <-]|done].
Qed.

(** The rest of the run after the loop over the movies is left by an
    exception only when one ends the iteration over the chunks. *)
Lemma after_movies_does : does quiet_step ends_import after_movies.
Proof.
  unfold after_movies.
  apply does_bind; [apply save_cache_does|]. intros _.
  apply does_bind.
  { destruct ratings_csv eqn:Hr; [|apply does_ret].
    apply does_bind; [eapply does_weaken; [apply ratings_loop_does|done]|].
    intros _. eapply does_weaken; [apply raise_if_does|].
    intros e He. split; [by rewrite Hr|done]. }
  intros _. apply does_try_finally; [|apply close_quietly_does].
  eapply does_try_except; [apply conn_commit_does|].
  intros e ->. simpl. apply does_ret.
Qed.

Lemma on_interrupt_does : does quiet_step no_exn on_interrupt.
Proof.
  unfold on_interrupt.
  apply does_bind; [apply save_cache_does|]. intros _.
  apply does_try_finally; [|apply close_quietly_does].
  eapply does_try_except; [apply conn_commit_does|].
  intros e ->. simpl. apply does_ret.
Qed.

Lemma main_from_movies_does limit no_enrich rows total enriched_count :
  does run_step ends_import (main_from_movies limit no_enrich rows total enriched_count).
Proof.
  unfold main_from_movies. apply does_bind.
  { eapply does_try_except.
    - apply does_bind; [apply movie_loop_does|]. intros; apply does_ret.
    - intros e ->. simpl.
      apply does_bind;
        [apply does_quiet_run; eapply does_weaken; [apply on_interrupt_does|done]|].
      intros; apply does_ret. }
  intros finished. destruct (negb finished); [apply does_ret|].
  apply does_quiet_run, after_movies_does.
Qed.

Lemma recreate_ratings_does :
  does quiet_step (only MysqlError) recreate_ratings_table_if_requested.
Proof.
  unfold recreate_ratings_table_if_requested.
  apply does_bind; [apply does_gets|]. intros now.
  eapply (does_try_except (only MysqlError)).
  - apply does_bind; [by apply cursor_execute_does|]. intros _.
    apply does_bind; [apply does_gets|]. intros d.
    apply does_bind.
    { destruct (bool_decide _); [|apply does_ret].
      eapply does_try_except; [by apply cursor_execute_does|].
      intros e ->. simpl. apply does_ret. }
    intros _. apply does_bind; [by apply cursor_execute_does|].
    intros _. apply conn_commit_does.
  - intros e ->. simpl. intros st. apply wp_raise. split; [reflexivity|].
    by intros ? [= <-].
Qed.


Lemma does_no_exn_ok {R A} (m : M A) st :
  does R no_exn m -> exists a, (m st).1 = Ok a.
Proof.
  intros Hm. destruct (Hm st) as [_ He]. destruct (m st).1 as [a|e]; [eauto|].
  destruct (He e eq_refl).
Qed.



End Driver_loops.

(** ** The call budget *)

Lemma query_omdb_at_most_three `{Unicode} `{World} title year st :
  wp (query_omdb title year)
     (fun _ st' => exists evs, trace st' = evs ++ trace st /\
        (length (http_calls evs) <= 3)%nat /\
        OMDB_CALL_COUNT st' <= OMDB_CALL_COUNT st + Z.of_nat (length (http_calls evs))) st.
Proof.
  unfold query_omdb, session_get, count_call.
  repeat wp_step; simpl; trace_ext; simpl; lia.
Qed.

Lemma main_does `{Unicode} `{World} limit no_enrich recreate_ratings :
  does run_step (fun _ => True) (main limit no_enrich recreate_ratings).
Proof.
  unfold main. apply does_bind.
  { eapply (does_try_except (fun _ => True)).
    - apply does_bind; [|intros; apply does_ret].
      unfold mysql_connect. intros st. destruct connect; [apply wp_raise|apply wp_ret];
        (split; [reflexivity|done]).
    - intros e _. destruct (is_mysql_Error e); [apply does_ret|done]. }
  intros connected. destruct (negb connected); [apply does_ret|].
  apply does_bind.
  { destruct recreate_ratings; [|apply does_ret].
    eapply does_weaken; [apply does_quiet_run, recreate_ratings_does|done]. }
  intros _. destruct movies_csv.
  - apply does_bind; [eapply does_weaken; [apply raise_if_does|done]|]. intros _.
    apply does_bind.
    { destruct ratings_csv; [eapply does_weaken; [apply raise_if_does|done]|apply does_ret]. }
    intros _.
    apply does_bind; [apply does_quiet_run, load_cache_does|]. intros _.
    eapply does_weaken; [apply main_from_movies_does|done].
  - apply does_quiet_run, close_quietly_does.
Qed.

(** C10.  The budget is checked on entry to [query_omdb] only: a call
    sends at most three requests and adds at most as many to the counter,
    and adds nothing once the limit is reached; so the counter of a run
    never exceeds the limit plus two, from the start of [main] and from
    any iteration of the loop over the movies; and there is a run in which
    it reaches the limit plus two. *)
Theorem call_counter_bound `{Unicode} :
  (forall (W : World) title year st,
     let st' := (query_omdb title year st).2 in
     (exists evs, trace st' = evs ++ trace st /\
        (length (http_calls evs) <= 3)%nat /\
        OMDB_CALL_COUNT st' <= OMDB_CALL_COUNT st + Z.of_nat (length (http_calls evs))) /\
     OMDB_CALL_COUNT st <= OMDB_CALL_COUNT st' /\
     (OMDB_DAILY_LIMIT <= OMDB_CALL_COUNT st -> OMDB_CALL_COUNT st' = OMDB_CALL_COUNT st) /\
     (OMDB_CALL_COUNT st <= OMDB_DAILY_LIMIT + 2 ->
      OMDB_CALL_COUNT st' <= OMDB_DAILY_LIMIT + 2)) /\
  (forall (W : World) limit no_enrich recreate_ratings file d,
     OMDB_CALL_COUNT (main limit no_enrich recreate_ratings (initial_state file d)).2
     <= OMDB_DAILY_LIMIT + 2) /\
  (forall (W : World) limit no_enrich rows total enriched_count st,
     OMDB_CALL_COUNT st <= OMDB_DAILY_LIMIT + 2 ->
     OMDB_CALL_COUNT (main_from_movies limit no_enrich rows total enriched_count st).2
     <= OMDB_DAILY_LIMIT + 2) /\
  (exists (W : World) limit no_enrich recreate_ratings file d,
     OMDB_CALL_COUNT (main limit no_enrich recreate_ratings (initial_state file d)).2
     = OMDB_DAILY_LIMIT + 2).
Proof.
  split_and!.
  - intros W title year st st'.
    pose proof (query_omdb_at_most_three title year st) as H3.
    pose proof (query_omdb_wp title year st) as ((Hm & Hb & _ & evs & _ & Hl) & _).
    split_and!; [exact H3|exact Hm| |exact Hb].
    intros Hge. by destruct (Hl Hge).
  - intros W limit no_enrich recreate_ratings file d.
    destruct (main_does limit no_enrich recreate_ratings (initial_state file d))
      as ((_ & Hb & _) & _).
    apply Hb. simpl. unfold OMDB_DAILY_LIMIT. lia.
  - intros W limit no_enrich rows total enriched_count st Hle.
    destruct (main_from_movies_does limit no_enrich rows total enriched_count st)
      as ((_ & Hb & _) & _).
    by apply Hb.
  - exists (calm_world three_requests (numbered_movies 334)), None, false, false, None, empty_db.
    vm_compute. reflexivity.
Qed.

Lemma call_counter_witness :
  let W := calm_world three_requests [] in
  let st := with_count 999 (initial_state None empty_db) in
  OMDB_CALL_COUNT (query_omdb (H0:=W) (py "Alien") None st).2 <= 1002.
Proof.
  intros W st.
  refine (proj2 (proj2 (proj2 (proj1 (call_counter_bound (H:=latin1)) W (py "Alien") None st))) _).
  vm_compute. discriminate.
Defined.

(** ** Rate-limit containment *)







(** ** Error propagation *)





(** * Further properties of the code *)

(** ** The two upserts *)

Lemma upsert_rating_lookup r t k :
  upsert_rating r t !! k =
    if decide (rating_key r = k)
    then Some {| rt_rating := r.1.2;
                 rt_timestamp := match r.2 with
                                 | Some ts => Some ts
                                 | None => (t !! k) ≫= rt_timestamp
                                 end |}
    else t !! k.
Proof.
  destruct r as [[[u m] q] ts]. unfold upsert_rating, rating_key. simpl.
  destruct (decide ((u, m) = k)) as [<-|Hk].
  - destruct (t !! (u, m)) as [old|]; rewrite lookup_insert_eq; simpl; [done|].
    by destruct ts.
  - by destruct (t !! (u, m)); rewrite lookup_insert_ne.
Qed.

Lemma upsert_ratings_lookup rows t k :
  foldl (fun t r => upsert_rating r t) t rows !! k = after_chunk k rows (t !! k).
Proof.
  induction rows as [|r rows IH] using rev_ind.
  { done. }
  rewrite foldl_app. simpl. rewrite upsert_rating_lookup, IH.
  unfold after_chunk, rows_of. rewrite list.filter_app, list.filter_cons, list.filter_nil.
  destruct (decide (rating_key r = k)) as [Hk|Hk].
  - rewrite last_snoc, omap_app. simpl.
    destruct r.2 as [ts|] eqn:Hts; simpl.
    + by rewrite last_snoc.
    + rewrite app_nil_r. f_equal. f_equal.
      destruct (list.last (filter _ rows)) as [r0|] eqn:Hl; [done|].
      apply last_None in Hl. by rewrite Hl.
  - by rewrite app_nil_r.
Qed.

(** X1.  The base upsert of a movie is idempotent: it always succeeds,
    sending it again changes nothing, the row then has the title and the
    genres of the statement and the enrichment it had before (none for a
    new row), and no other row and no rating is touched. *)
Theorem movie_upsert_idempotent (d : database) (movieId : Z) (title genres : pyobj) :
  let q := insert_movie_query movieId title genres in
  exists d1,
    run_statement q d = Some d1 /\
    run_statement q d1 = Some d1 /\
    movies d1 !! movieId
    = Some {| mv_title := title; mv_genres := genres;
              mv_enrichment := (movies d !! movieId) ≫= mv_enrichment |} /\
    (forall id, id <> movieId -> movies d1 !! id = movies d !! id) /\
    ratings d1 = ratings d.
Proof.
  simpl. eexists. split; [reflexivity|]. simpl. unfold upsert_movie.
  destruct (movies d !! movieId) as [old|] eqn:Ho; simpl;
    rewrite lookup_insert_eq; simpl; rewrite insert_insert_eq;
    (split_and!; [done|done| |done]); intros id Hid; by rewrite lookup_insert_ne.
Qed.

(** X2.  [executemany] over a chunk: a key of the chunk ends with the
    rating of its last tuple and with the last timestamp of its tuples
    that is not null (the timestamp the table held when they all are);
    the other keys and the movies are left alone. *)
Theorem executemany_last_row_wins (d : database) (t : gmap (Z * Z) rating)
    (rows : list rating_tuple) :
  ratings d = Some t ->
  exists t',
    run_statement (insert_rating_query rows) d
    = Some {| movies := movies d; ratings := Some t' |} /\
    (forall k, t' !! k = after_chunk k rows (t !! k)) /\
    (forall k, rows_of k rows = [] -> t' !! k = t !! k).
Proof.
  intros Hd. eexists. simpl. rewrite Hd. split; [reflexivity|]. split.
  - intros k. apply upsert_ratings_lookup.
  - intros k Hk. rewrite upsert_ratings_lookup. unfold after_chunk. by rewrite Hk.
Qed.

Lemma executemany_witness :
  let t : gmap (Z * Z) rating :=
    {[ (1, 1) := {| rt_rating := (3 # 1)%Q; rt_timestamp := Some 1000000000 |} ]} in
  let rows : list rating_tuple :=
    [(1, 1, (4 # 1)%Q, Some 1700000000); (2, 1, (5 # 1)%Q, None); (1, 1, (9 # 2)%Q, None)] in
  exists t',
    run_statement (insert_rating_query rows) {| movies := ∅; ratings := Some t |}
    = Some {| movies := ∅; ratings := Some t' |} /\
    t' !! (1, 1) = Some {| rt_rating := (9 # 2)%Q; rt_timestamp := Some 1700000000 |} /\
    t' !! (2, 1) = Some {| rt_rating := (5 # 1)%Q; rt_timestamp := None |} /\
    t' !! (3, 1) = None.
Proof.
  intros t rows.
  destruct (executemany_last_row_wins {| movies := ∅; ratings := Some t |} t rows eq_refl)
    as (t' & E & L & _).
  exists t'. split; [exact E|]. rewrite !L. split_and!; reflexivity.
Defined.

(** ** More on the title normalizer *)

Lemma re_match_suffix r s rest : re_match r s = Some rest -> exists q, s = q ++ rest.
Proof.
  revert s rest. induction r as [|a r IH]; intros s rest; simpl.
  { intros [= ->]. by exists []. }
  destruct a as [p|p|].
  - destruct s as [|c s]; [done|]. destruct (p c); [|done].
    intros Hm. destruct (IH _ _ Hm) as [q ->]. by exists (c :: q).
  - intros Hs. apply star_sound in Hs as (w & t & -> & _ & Hk).
    destruct (IH _ _ Hk) as [q ->]. exists (w ++ q). by rewrite app_assoc.
  - destruct (at_dollar s); [apply IH|done].
Qed.

(** What [re.search] finds is a match, at the place it says. *)
Lemma re_search_sound r s m :
  re_search r s = Some m ->
  s = m_before m ++ m_group0 m ++ m_after m /\
  re_match r (m_group0 m ++ m_after m) = Some (m_after m).
Proof.
  assert (Hhere : forall s rest, re_match r s = Some rest ->
            s = take (length s - length rest) s ++ rest /\
            re_match r (take (length s - length rest) s ++ rest) = Some rest).
  { intros s0 rest E. destruct (re_match_suffix _ _ _ E) as [q ->].
    replace (length (q ++ rest) - length rest)%nat with (length q)
      by (rewrite length_app; lia).
    by rewrite take_app_length. }
  revert m. induction s as [|c s IH]; intros m.
  - cbn [re_search]. destruct (re_match r []) as [rest|] eqn:E; [|done].
    intros [= <-]. exact (Hhere _ _ E).
  - cbn [re_search]. destruct (re_match r (c :: s)) as [rest|] eqn:E.
    + intros [= <-]. exact (Hhere _ _ E).
    + destruct (re_search r s) as [m'|]; [|done].
      intros [= <-]. cbn [m_before m_group0 m_after].
      destruct (IH m' eq_refl) as [E1 E2]. split; [|done].
      simpl. by f_equal.
Qed.

Section Year_facts.
Context `{Unicode}.

(** The group of a match of [YEAR_RE] is four decimal digits. *)
Lemma year_group1_digits s m :
  re_search YEAR_RE s = Some m ->
  four_digits (year_group1 m) /\
  s = m_before m ++ parenthesized (year_group1 m) ++ m_after m.
Proof.
  intros Hs. apply re_search_sound in Hs as [E Hm].
  apply YEAR_RE_match in Hm as (ds & Hd & Eg).
  apply app_inv_tail in Eg. unfold year_group1. rewrite Eg in *.
  destruct Hd as [Hl Hd].
  assert (Et : take 4 (drop 1 (parenthesized ds)) = ds).
  { unfold parenthesized. simpl. rewrite drop_0, <- Hl. apply take_app_length. }
  rewrite Et. done.
Qed.

Lemma int_digits_bound ds acc z :
  (forall c d, decimal c = Some d -> (d <= 9)%N) ->
  int_digits acc ds = Some z -> 0 <= acc ->
  acc * 10 ^ Z.of_nat (length ds) <= z < (acc + 1) * 10 ^ Z.of_nat (length ds).
Proof.
  intros Hd. revert acc. induction ds as [|c ds IH]; intros acc; simpl int_digits.
  { intros [= ->] _. simpl. lia. }
  destruct (decimal c) as [d|] eqn:Hc; [|done].
  intros Hz Hacc. apply Hd in Hc. apply IH in Hz; [|lia].
  rewrite length_cons, Nat2Z.inj_succ, Z.pow_succ_r by lia.
  assert (0 < 10 ^ Z.of_nat (length ds)) by (apply Z.pow_pos_nonneg; lia).
  nia.
Qed.
End Year_facts.

(** X3.  [extract_year_from_title] returns a year exactly for the titles
    that have four decimal digits in parentheses somewhere: the
    conversion of the group by [int()] never fails, and the [except]
    branch around it is never taken. *)
Theorem extract_year_defined `{Unicode} (s : list N) :
  is_Some (extract_year_from_title (PyStr s)) <-> has_year s.
Proof.
  split.
  - intros [y Hy]. simpl in Hy.
    destruct (re_search YEAR_RE s) as [m|] eqn:Hs; [|done].
    apply year_group1_digits in Hs as [Hd E].
    by exists (m_before m), (year_group1 m), (m_after m).
  - intros Hy. destruct (has_year_search s Hy) as [m Hs]. simpl. rewrite Hs.
    apply year_group1_digits in Hs as [Hd _].
    destruct (py_int_four_digits _ Hd) as [y ->]. eauto.
Qed.

(** X4.  When the decimal digits have the values 0 to 9, as they do in
    Unicode, the extracted year lies between 0 and 9999. *)
Theorem extracted_year_range `{Unicode} (title : pyobj) (y : Z) :
  (forall c d, decimal c = Some d -> (d <= 9)%N) ->
  extract_year_from_title title = Some y ->
  0 <= y <= 9999.
Proof.
  intros Hd Hy. destruct title as [s| | |]; try done. simpl in Hy.
  destruct (re_search YEAR_RE s) as [m|] eqn:Hs; [|done].
  apply year_group1_digits in Hs as [[Hl _] _].
  destruct (py_int (year_group1 m)) as [z|] eqn:Hi; [|done].
  injection Hy as ->. unfold py_int in Hi.
  destruct (year_group1 m) as [|c ds] eqn:Eg; [done|]. rewrite <- Eg in *.
  rewrite Hl in Hi. simpl in Hi.
  apply (int_digits_bound _ _ _ Hd) in Hi; [|done]. rewrite Hl in Hi.
  change (10 ^ Z.of_nat 4) with 10000 in Hi. lia.
Qed.

Lemma extracted_year_witness :
  extract_year_from_title (H:=latin1) (PyStr (py "Toy Story (1995)")) = Some 1995 /\
  0 <= 1995 <= 9999.
Proof.
  split; [reflexivity|].
  apply (extracted_year_range (H:=latin1) (PyStr (py "Toy Story (1995)")) 1995).
  - intros c d. simpl. destruct (between 48 57 c) eqn:Hb; [|done].
    intros [= <-]. unfold between in Hb.
    apply andb_true_iff in Hb as [_ Hb%N.leb_le]. lia.
  - reflexivity.
Defined.

(** X5.  The clean title is always the stripped text of a prefix of the
    title: the whole title, or what comes before a year in parentheses
    that ends it; nothing else is ever removed, and the result has no
    white space at either end. *)
Theorem clean_title_shape `{Unicode} (s : list N) :
  exists pre post,
    s = pre ++ post /\
    clean_title_for_query (PyStr s) = strip pre /\
    strip (clean_title_for_query (PyStr s)) = clean_title_for_query (PyStr s) /\
    (post = [] \/
     exists w1 ds w2,
       blank w1 /\ four_digits ds /\ blank w2 /\ post = w1 ++ parenthesized ds ++ w2).
Proof.
  destruct (re_search TAIL_YEAR_RE s) as [m|] eqn:Hs.
  - apply re_search_sound in Hs as [E Hm].
    apply TAIL_YEAR_RE_sound in Hm as (w1 & ds & w2 & H1 & Hd & H2 & Eg).
    exists (m_before m), (m_group0 m ++ m_after m). split; [done|].
    split; [|split].
    + rewrite E, Eg. by apply clean_title_trailing_year.
    + apply clean_title_stripped.
    + right. by exists w1, ds, w2.
  - exists s, []. split; [by rewrite app_nil_r|]. split; [|split].
    + apply clean_title_no_trailing_year. intros Hy.
      destruct (ends_with_year_search s Hy) as [m Hm]. congruence.
    + apply clean_title_stripped.
    + by left.
Qed.

(** ** More on the metadata client *)

Lemma eq_str_true v s : eq_str v s = true -> v = JStr s.
Proof. destruct v; simpl; try done. by intros ->%bool_decide_eq_true. Qed.

(** X6.  A result of [query_omdb] other than [None] is the body of an
    answer whose [Response] is ["True"]; the call was made with the
    budget not used up and a credential, it counted at least one request,
    and it left the flag as it was. *)
Theorem query_omdb_found `{World} (title : list N) (year : option Z) (st st' : state)
    (v : json) :
  query_omdb title year st = (Ok v, st') ->
  v <> JNull ->
  py_get v (py "Response") = Ok (JStr (py "True")) /\
  OMDB_CALL_COUNT st < OMDB_DAILY_LIMIT /\
  str_truthy OMDB_API_KEY = true /\
  OMDB_CALL_COUNT st < OMDB_CALL_COUNT st' /\
  RATE_LIMITED st' = RATE_LIMITED st.
Proof.
  intros E Hv.
  assert (Hw : wp (query_omdb title year)
                 (fun r st' => forall v, r = Ok v -> v <> JNull ->
                    py_get v (py "Response") = Ok (JStr (py "True")) /\
                    OMDB_CALL_COUNT st < OMDB_DAILY_LIMIT /\
                    str_truthy OMDB_API_KEY = true /\
                    OMDB_CALL_COUNT st < OMDB_CALL_COUNT st' /\
                    RATE_LIMITED st' = RATE_LIMITED st) st).
  { unfold query_omdb, session_get, count_call.
    repeat wp_step; simpl in *; intros ? [= <-] ?; try done.
    all: bool_hyps.
    all: repeat match goal with
           | Hx : eq_str _ _ = true |- _ => apply eq_str_true in Hx; subst
           | Hx : negb _ = false |- _ => apply negb_false_iff in Hx
           end.
    all: split_and!; try done; try lia. }
  unfold wp in Hw. rewrite E in Hw. by apply Hw.
Qed.

Lemma query_omdb_found_witness :
  let W := calm_world found [] in
  let run := query_omdb (H0:=W) (py "Toy Story") (Some 1995) (initial_state None empty_db) in
  run.1 = Ok toy_story_data /\
  py_get toy_story_data (py "Response") = Ok (JStr (py "True")) /\
  RATE_LIMITED run.2 = false.
Proof.
  intros W run.
  destruct (query_omdb_found (H:=W) (py "Toy Story") (Some 1995)
              (initial_state None empty_db) run.2 toy_story_data)
    as (A & _ & _ & _ & B); [reflexivity|discriminate|].
  split; [reflexivity|]. split; [exact A|exact B].
Defined.

(** X7.  A request that raises is not counted: when the title lookup of a
    call raises, the counter and the flag stay as they were although the
    request was sent; an exception of class [Exception] ends the call
    with [None], an interrupt leaves it. *)
Theorem failed_request_not_counted `{World} (title : list N) (year : option Z)
    (st : state) (e : exn) :
  OMDB_CALL_COUNT st < OMDB_DAILY_LIMIT ->
  str_truthy OMDB_API_KEY = true ->
  omdb (S (length (trace st))) (ByTitle title (if year_truthy year then year else None))
  = HttpRaises e ->
  let run := query_omdb title year st in
  run.1 = (if is_Exception e then Ok JNull else Raise e) /\
  OMDB_CALL_COUNT run.2 = OMDB_CALL_COUNT st /\
  RATE_LIMITED run.2 = RATE_LIMITED st /\
  http_calls (trace run.2)
  = ByTitle title (if year_truthy year then year else None) :: http_calls (trace st).
Proof.
  intros Hl Hk Ho. unfold query_omdb, session_get, count_call.
  unfold mbind, M_bind, try_except, emit, modify, gets, tick, mret, M_ret. simpl.
  rewrite bool_decide_eq_false_2 by lia. rewrite Hk. simpl. rewrite Ho. simpl.
  by destruct (is_Exception e).
Qed.

Lemma failed_request_witness :
  let W := calm_world unreachable [] in
  let run := query_omdb (H0:=W) (py "Toy Story") (Some 1995) (initial_state None empty_db) in
  run.1 = Ok JNull /\ OMDB_CALL_COUNT run.2 = 0 /\
  http_calls (trace run.2) = [ByTitle (py "Toy Story") (Some 1995)].
Proof.
  intros W run.
  destruct (failed_request_not_counted (H:=W) (py "Toy Story") (Some 1995)
              (initial_state None empty_db) PyError) as (A & B & _ & C);
    [reflexivity..|].
  split; [exact A|]. split; [exact B|exact C].
Defined.

(** *** Computations that do not read the flag *)

Lemma same_but_flag_fields st1 st2 :
  same_but_flag st1 st2 <->
  OMDB_CALL_COUNT st1 = OMDB_CALL_COUNT st2 /\ cache st1 = cache st2 /\
  trace st1 = trace st2 /\ db st1 = db st2 /\ db_committed st1 = db_committed st2 /\
  cache_file st1 = cache_file st2.
Proof.
  unfold same_but_flag, with_flag. destruct st1, st2; simpl. split.
  - by intros [= -> -> -> -> -> ->].
  - by intros (-> & -> & -> & -> & -> & ->).
Qed.

Lemma flag_blind_ret {A} (a : A) : flag_blind (mret a).
Proof. by intros st1 st2 Hs. Qed.

Lemma flag_blind_raise {A} e : flag_blind (@raise A e).
Proof. by intros st1 st2 Hs. Qed.

Lemma flag_blind_lift {A} (r : result A) : flag_blind (lift r).
Proof. by intros st1 st2 Hs. Qed.

Lemma flag_blind_gets {A} (f : state -> A) :
  (forall st, f (with_flag false st) = f st) -> flag_blind (gets f).
Proof.
  intros Hf st1 st2 Hs. split; [|done]. simpl. f_equal.
  rewrite <- (Hf st1), <- (Hf st2). by f_equal.
Qed.

Lemma flag_blind_modify (f : state -> state) :
  (forall st, with_flag false (f st) = with_flag false (f (with_flag false st))) ->
  flag_blind (modify f).
Proof.
  intros Hf st1 st2 Hs. split; [done|]. unfold same_but_flag. simpl.
  rewrite (Hf st1), (Hf st2). by rewrite Hs.
Qed.

Lemma flag_blind_bind {A B} (m : M A) (f : A -> M B) :
  flag_blind m -> (forall a, flag_blind (f a)) -> flag_blind (m ≫= f).
Proof.
  intros Hm Hf st1 st2 Hs. destruct (Hm st1 st2 Hs) as [Hr Hs'].
  unfold mbind, M_bind.
  destruct (m st1) as [[a1|e1] st1'], (m st2) as [[a2|e2] st2']; simpl in *;
    simplify_eq; [|done]. by apply Hf.
Qed.

Lemma flag_blind_try_except {A} (m : M A) (classes : exn -> bool) (h : exn -> M A) :
  flag_blind m -> (forall e, flag_blind (h e)) -> flag_blind (try_except m classes h).
Proof.
  intros Hm Hh st1 st2 Hs. destruct (Hm st1 st2 Hs) as [Hr Hs'].
  unfold try_except.
  destruct (m st1) as [[a1|e1] st1'], (m st2) as [[a2|e2] st2']; simpl in *;
    simplify_eq; [done|].
  destruct (classes e2); [by apply Hh|done].
Qed.

Ltac flag_blind_step :=
  lazymatch goal with
  | |- flag_blind (mbind _ _) => apply flag_blind_bind; [|intros ?]
  | |- flag_blind (mret _) => apply flag_blind_ret
  | |- flag_blind (raise _) => apply flag_blind_raise
  | |- flag_blind (lift _) => apply flag_blind_lift
  | |- flag_blind (try_except _ _ _) => apply flag_blind_try_except; [|intros ?]
  | |- flag_blind (gets _) => apply flag_blind_gets; by intros []
  | |- flag_blind tick => apply flag_blind_gets; by intros []
  | |- flag_blind (modify _) => apply flag_blind_modify; by intros []
  | |- flag_blind (emit _) => apply flag_blind_modify; by intros []
  | |- flag_blind (if ?b then _ else _) => destruct b
  | |- flag_blind (match ?x with _ => _ end) => destruct x
  end.

Lemma query_omdb_flag_blind `{World} title year : flag_blind (query_omdb title year).
Proof. unfold query_omdb, session_get, count_call. repeat flag_blind_step. Qed.

Lemma enrich_movie_flag_blind `{Unicode} `{World} title : flag_blind (enrich_movie title).
Proof.
  unfold enrich_movie, enrich_movie_queries, build_enriched, cache_set, time_sleep.
  repeat first [apply query_omdb_flag_blind | flag_blind_step].
Qed.

(** X8.  Neither [query_omdb] nor [enrich_movie] reads the flag: with
    the flag set or not, the same call gives the same result, the same
    requests, the same counter and the same cache.  Only the loop over
    the movies looks at the flag, so that the queries that follow in the
    call that set it are still sent. *)
Theorem enrichment_ignores_flag `{Unicode} `{World} (b : bool) (st : state) :
  (forall title year,
     let run := query_omdb title year st in
     let run' := query_omdb title year (with_flag b st) in
     run'.1 = run.1 /\ trace run'.2 = trace run.2 /\
     OMDB_CALL_COUNT run'.2 = OMDB_CALL_COUNT run.2 /\ cache run'.2 = cache run.2) /\
  (forall title,
     let run := enrich_movie title st in
     let run' := enrich_movie title (with_flag b st) in
     run'.1 = run.1 /\ trace run'.2 = trace run.2 /\
     OMDB_CALL_COUNT run'.2 = OMDB_CALL_COUNT run.2 /\ cache run'.2 = cache run.2).
Proof.
  assert (Hs : same_but_flag (with_flag b st) st) by by destruct st.
  split.
  - intros title year. destruct (query_omdb_flag_blind title year _ _ Hs) as [Hr Hst].
    apply same_but_flag_fields in Hst as (? & ? & ? & _). done.
  - intros title. destruct (enrich_movie_flag_blind title _ _ Hs) as [Hr Hst].
    apply same_but_flag_fields in Hst as (? & ? & ? & _). done.
Qed.

(** ** What the enrichment touches *)

Lemma emits_preorder P : PreOrder (emits P).
Proof.
  split.
  - intros st. by exists [].
  - intros a b c (e1 & A1 & A2) (e2 & B1 & B2). exists (e2 ++ e1).
    by rewrite B1, A1, app_assoc, forallb_app, A2, B2.
Qed.

Lemma service_step_preorder : PreOrder service_step.
Proof.
  split.
  - intros st. split_and!; try done. by exists [].
  - intros a b c (A1 & A2 & A3 & A4) (B1 & B2 & B3 & B4).
    split_and!; [congruence..|]. by eapply (@PreOrder_Transitive _ _ (emits_preorder _)).
Qed.

Lemma idle_step_preorder : PreOrder idle_step.
Proof.
  split.
  - intros st. by split_and!.
  - intros a b c (A1 & A2 & A3) (B1 & B2 & B3).
    split_and!; [congruence..|]. intros Hl. rewrite B3, A3; [done|done|lia].
Qed.

#[local] Existing Instance emits_preorder.
#[local] Existing Instance service_step_preorder.
#[local] Existing Instance idle_step_preorder.

Lemma does_lift {R : state -> state -> Prop} `{!PreOrder R} {A} (r : result A) :
  does R anything (lift r).
Proof. intros st. apply wp_lift. split; [reflexivity|done]. Qed.

Lemma does_raise {R : state -> state -> Prop} `{!PreOrder R} {A} e :
  does R anything (@raise A e).
Proof. intros st. apply wp_raise. split; [reflexivity|done]. Qed.

Ltac does_step :=
  lazymatch goal with
  | |- does _ _ (mbind _ _) => apply does_bind; [|intros ?]
  | |- does _ _ (mret _) => apply does_ret
  | |- does _ _ (raise _) => apply does_raise
  | |- does _ _ (raise_if _) => unfold raise_if
  | |- does _ _ (lift _) => apply does_lift
  | |- does _ _ (gets _) => apply does_gets
  | |- does _ _ tick => apply does_gets
  | |- does _ _ (try_except _ _ _) =>
      apply (does_try_except anything); [|intros ? _; case_match; [|done]]
  | |- does _ _ (try_finally _ _) => apply does_try_finally
  | |- does _ _ (if ?b then _ else _) => destruct b
  | |- does _ _ (match ?x with _ => _ end) => destruct x
  end.

(** [enrich_movie] is made of its queries, the write to the cache and the
    sleep: what these three keep, it keeps. *)
Section Enrichment_steps.
Context `{Unicode} `{World} {R : state -> state -> Prop} `{!PreOrder R}.
Hypothesis query_step : forall title year, does R anything (query_omdb title year).

Lemma enrich_movie_queries_step clean_title year :
  does R anything (enrich_movie_queries clean_title year).
Proof.
  unfold enrich_movie_queries. repeat first [apply query_step | does_step].
Qed.

Hypothesis cache_step : forall key v, does R anything (cache_set key v).
Hypothesis sleep_step : does R anything time_sleep.

Lemma enrich_movie_step title : does R anything (enrich_movie title).
Proof.
  unfold enrich_movie, build_enriched.
  repeat first [apply enrich_movie_queries_step | apply cache_step | apply sleep_step
               | does_step].
Qed.
End Enrichment_steps.

Ltac emits_ext :=
  lazymatch goal with
  | |- emits _ _ _ =>
      first [ by exists [] | by eexists [_] | by eexists [_; _] | by eexists [_; _; _]
            | by eexists [_; _; _; _] ]
  end.

Lemma query_omdb_requests `{World} title year :
  does (emits is_request_event) anything (query_omdb title year).
Proof.
  intros st. unfold query_omdb, session_get, count_call.
  repeat wp_step; simpl; (split; [emits_ext|done]).
Qed.

Lemma query_omdb_service `{World} title year :
  does service_step anything (query_omdb title year).
Proof.
  intros st. unfold query_omdb, session_get, count_call, service_step.
  repeat wp_step; simpl; (split; [|done]); (split_and!; [done..|emits_ext]).
Qed.

Lemma enrich_movie_service `{Unicode} `{World} title :
  does service_step anything (enrich_movie title).
Proof.
  apply enrich_movie_step.
  - apply query_omdb_service.
  - intros key v st0. unfold cache_set, service_step. wp_step. simpl.
    split; [|done]. split_and!; [done..|emits_ext].
  - intros st0. unfold time_sleep, service_step.
    repeat wp_step; simpl; (split; [|done]); (split_and!; [done..|emits_ext]).
Qed.

(** X9.  [enrich_movie] leaves the database alone: the tables, what is
    committed of them and the cache file are as before, and the only
    events are calls of [query_omdb], requests and sleeps (no statement,
    no commit, no write of the cache file). *)
Theorem enrich_movie_leaves_database `{Unicode} `{World} (title : pyobj) (st : state) :
  let st' := (enrich_movie title st).2 in
  db st' = db st /\ db_committed st' = db_committed st /\
  cache_file st' = cache_file st /\
  exists evs, trace st' = evs ++ trace st /\ forallb is_service_event evs = true.
Proof. apply enrich_movie_service. Qed.

(** X10.  [enrich_movie] sleeps at most once, after its queries and the
    write to the cache: a call answered from the cache, or made without a
    credential, adds nothing to the trace; any other call that returns
    has slept exactly once, as the last thing it did, whether a request
    was sent or not. *)
Theorem enrich_movie_sleeps_once `{Unicode} `{World} (title : pyobj) (st : state) :
  let key := cache_key (clean_title_for_query title) (extract_year_from_title title) in
  let run := enrich_movie title st in
  exists reqs,
    forallb is_request_event reqs = true /\
    (trace run.2 = reqs ++ trace st \/ trace run.2 = EvSleep :: reqs ++ trace st) /\
    (is_Some (cache st !! key) \/ str_truthy OMDB_API_KEY = false ->
     trace run.2 = trace st) /\
    (cache st !! key = None -> str_truthy OMDB_API_KEY = true ->
     forall v, run.1 = Ok v -> trace run.2 = EvSleep :: reqs ++ trace st).
Proof.
  intros key.
  change (wp (enrich_movie title)
            (fun r st' => exists reqs,
               forallb is_request_event reqs = true /\
               (trace st' = reqs ++ trace st \/ trace st' = EvSleep :: reqs ++ trace st) /\
               (is_Some (cache st !! key) \/ str_truthy OMDB_API_KEY = false ->
                trace st' = trace st) /\
               (cache st !! key = None -> str_truthy OMDB_API_KEY = true ->
                forall v, r = Ok v -> trace st' = EvSleep :: reqs ++ trace st)) st).
  unfold enrich_movie. fold key. apply wp_bind, wp_gets.
  destruct (cache st !! key) as [v0|] eqn:Hc.
  { apply wp_ret. exists []. split_and!; try done. by left. }
  destruct (str_truthy OMDB_API_KEY) eqn:Hk; simpl negb; cbv iota.
  2:{ unfold cache_set. repeat wp_step. simpl. exists []. split_and!; try done. by left. }
  apply wp_bind.
  eapply wp_mono; [apply (enrich_movie_queries_step (R:=emits is_request_event));
                   apply query_omdb_requests|].
  intros [data|e] st1 [(reqs & Ht & Hr) _].
  2:{ exists reqs. split_and!; [done|by left| |done]. by intros [[? [=]]|[=]]. }
  unfold build_enriched, cache_set, time_sleep.
  repeat wp_step; simpl; exists reqs; rewrite ?Ht;
    (split_and!; [done|auto|by intros [[? [=]]|[=]]|by intros _ _ ? [=]]).
Qed.

(** ** A service that cannot be reached *)

Section Unreachable.
Context `{Unicode} `{World}.
Hypothesis down : forall n rq, exists e, omdb n rq = HttpRaises e /\ is_Exception e = true.

Lemma query_omdb_down title year st :
  wp (query_omdb title year) (fun r st' => r = Ok JNull /\ idle_step st st') st.
Proof.
  unfold query_omdb, session_get, count_call, idle_step.
  apply wp_bind, wp_modify. apply wp_bind, wp_gets.
  destruct (bool_decide _) eqn:Hl; bool_hyps.
  { repeat wp_step. simpl in *. split_and!; try done. unfold OMDB_DAILY_LIMIT in *. lia. }
  destruct (negb _); [by apply wp_ret|].
  apply wp_try_except, wp_bind, wp_bind, wp_gets, wp_bind, wp_modify.
  simpl. set (rq := ByTitle _ _).
  destruct (down (S (length (trace st))) rq) as (e & -> & He).
  apply wp_raise. rewrite He. by apply wp_ret.
Qed.

Lemma first_success_down plan st :
  wp (first_success plan) (fun r st' => r = Ok JNull /\ idle_step st st') st.
Proof.
  revert st. induction plan as [|[t y] plan IH]; intros st; simpl.
  { apply wp_ret. split; [done|reflexivity]. }
  apply wp_bind. eapply wp_mono; [apply query_omdb_down|].
  intros r st1 [-> R1]. simpl. eapply wp_mono; [apply IH|].
  intros r st2 [-> R2]. split; [done|by etrans].
Qed.
End Unreachable.

(** X11.  While the service cannot be reached (every request raises an
    exception of class [Exception]), a call of [enrich_movie] for a
    title that is not in the cache stores a miss under its key, exactly
    as if the service had answered that there is no such movie; it counts
    nothing and, the budget not being used up, leaves the flag unset. *)
Theorem unreachable_service_caches_miss `{Unicode} `{World} (title : pyobj) (st : state) :
  (forall n rq, exists e, omdb n rq = HttpRaises e /\ is_Exception e = true) ->
  let key := cache_key (clean_title_for_query title) (extract_year_from_title title) in
  let run := enrich_movie title st in
  cache st !! key = None ->
  cache run.2 = <[key := None]> (cache st) /\
  (run.1 = Ok None \/ run.1 = Raise KeyboardInterrupt) /\
  OMDB_CALL_COUNT run.2 = OMDB_CALL_COUNT st /\
  (OMDB_CALL_COUNT st < OMDB_DAILY_LIMIT -> RATE_LIMITED run.2 = RATE_LIMITED st).
Proof.
  intros Hdown key run Hc. subst run.
  change (wp (enrich_movie title)
            (fun r st' =>
               cache st' = <[key := None]> (cache st) /\
               (r = Ok None \/ r = Raise KeyboardInterrupt) /\
               OMDB_CALL_COUNT st' = OMDB_CALL_COUNT st /\
               (OMDB_CALL_COUNT st < OMDB_DAILY_LIMIT ->
                RATE_LIMITED st' = RATE_LIMITED st)) st).
  unfold enrich_movie. fold key. apply wp_bind, wp_gets. rewrite Hc.
  destruct (negb _).
  { unfold cache_set. repeat wp_step. simpl. split_and!; auto. }
  apply wp_bind. unfold wp at 1. rewrite enrich_movie_queries_plan.
  eapply (wp_mono (first_success _)); [by apply first_success_down|].
  intros r st1 [-> (C1 & C2 & C3)]. simpl json_truthy. cbv iota.
  unfold cache_set, time_sleep. repeat wp_step; simpl; rewrite C1, C2; split_and!; auto.
Qed.

Lemma unreachable_service_witness :
  let W := calm_world unreachable [] in
  let title := PyStr (py "Toy Story (1995)") in
  let run := enrich_movie (H:=latin1) (H0:=W) title (initial_state None empty_db) in
  cache run.2 = {[ py "Toy Story__1995" := None ]} /\
  OMDB_CALL_COUNT run.2 = 0 /\
  http_calls (trace run.2)
  = [ByTitle (py "Toy Story") None; ByTitle (py "Toy Story") (Some 1995)].
Proof.
  intros W title run.
  destruct (unreachable_service_caches_miss (H:=latin1) (H0:=W) title
              (initial_state None empty_db)) as (A & _ & B & _).
  - intros n rq. by exists PyError.
  - reflexivity.
  - split; [exact A|]. split; [exact B|reflexivity].
Defined.

(** ** The ratings table *)


(** The recreation of the ratings table on a server that fails
    nothing. *)
Lemma recreate_fresh `{World} st :
  (forall n, mysql_fails n = false) ->
  wp recreate_ratings_table_if_requested
     (fun r st' => r = Ok tt /\ ratings (db st') = Some ∅ /\
        movies (db st') = movies (db st) /\ db_committed st' = db st') st.
Proof.
  intros Hf.
  unfold recreate_ratings_table_if_requested, cursor_execute, conn_commit.
  repeat wp_step; simpl in *; rewrite ?Hf in *; simplify_eq/=; bool_hyps;
    repeat case_match; simplify_eq/=; try done.
  all: try match goal with Hx : ¬ is_Some (Some _) |- _ => destruct Hx; eauto end.
  all: try match goal with Hx : is_Some None |- _ => by destruct Hx end.
Qed.

(** X12.  With a server that fails nothing, the recreation of the ratings
    table returns and leaves an empty ratings table; the movies are as
    they were, and everything, pending changes included, is committed. *)
Theorem recreate_gives_fresh_table `{World} (st : state) :
  (forall n, mysql_fails n = false) ->
  let run := recreate_ratings_table_if_requested st in
  run.1 = Ok tt /\
  ratings (db run.2) = Some ∅ /\
  movies (db run.2) = movies (db st) /\
  db_committed run.2 = db run.2.
Proof. intros Hf. by apply recreate_fresh. Qed.

Lemma recreate_fresh_witness :
  let d := {| movies := ∅;
              ratings := Some {[ (1, 1) := {| rt_rating := (3 # 1)%Q;
                                              rt_timestamp := None |} ]} |} in
  let run := recreate_ratings_table_if_requested (H0:=healthy_world [] None)
               (initial_state None d) in
  run.1 = Ok tt /\ ratings (db run.2) = Some ∅.
Proof.
  intros d run.
  destruct (recreate_gives_fresh_table (H:=healthy_world [] None) (initial_state None d))
    as (A & B & _); [done|].
  split; [exact A|exact B].
Defined.

(** X13.  When the renaming of the old ratings table fails and the rest
    succeeds, the recreation still returns: the failure is only logged,
    [CREATE TABLE IF NOT EXISTS] finds the old table, and the rows that
    were to be set aside are all still there for the import. *)
Theorem failed_rename_keeps_old_rows `{World} (st : state) (t : gmap (Z * Z) rating) :
  ratings (db st) = Some t ->
  mysql_fails (length (trace st)) = false ->
  mysql_fails (S (length (trace st))) = true ->
  mysql_fails (S (S (length (trace st)))) = false ->
  mysql_fails (S (S (S (length (trace st))))) = false ->
  let run := recreate_ratings_table_if_requested st in
  run.1 = Ok tt /\ db run.2 = db st /\ db_committed run.2 = db st.
Proof.
  intros Hr H0' H1 H2 H3.
  unfold recreate_ratings_table_if_requested, cursor_execute, conn_commit.
  unfold mbind, M_bind, try_except, emit, modify, gets, tick, mret, M_ret, raise.
  simpl. rewrite H0'. simpl. rewrite Hr. simpl.
  rewrite ?bool_decide_eq_true_2 by eauto. simpl. rewrite H1. simpl. rewrite H2. simpl.
  rewrite Hr. simpl. rewrite H3. simpl. by destruct (db st) as [m r]; simpl in *; subst.
Qed.

Lemma failed_rename_witness :
  let t : gmap (Z * Z) rating :=
    {[ (1, 1) := {| rt_rating := (3 # 1)%Q; rt_timestamp := None |} ]} in
  let d := {| movies := ∅; ratings := Some t |} in
  let W : World :=
    {| OMDB_API_KEY := None; omdb := nothing_found; sleep_interrupted := fun _ => false;
       clock := fun _ => py "20240101000000"; connect := None;
       mysql_fails := fun n => bool_decide (n = 1%nat);
       save_fails := fun _ => false; movies_csv := None; ratings_csv := None;
       save_truncates := fun _ => false; movies_csv_raises := None;
       ratings_csv_raises := None; ratings_chunks_raise := None |} in
  let run := recreate_ratings_table_if_requested (H0:=W) (initial_state None d) in
  run.1 = Ok tt /\ ratings (db run.2) = Some t.
Proof.
  intros t d W run.
  destruct (failed_rename_keeps_old_rows (H:=W) (initial_state None d) t)
    as (A & B & _); [reflexivity..|].
  split; [exact A|]. unfold run. by rewrite B.
Defined.

(** *** The import of the ratings *)

Section Ratings_import.
Context `{World}.

(** A chunk that the server accepts. *)
Lemma ratings_chunk_ok ratings_data total_inserted st t :
  mysql_fails (length (trace st)) = false ->
  mysql_fails (S (length (trace st))) = false ->
  ratings (db st) = Some t ->
  let d' := {| movies := movies (db st);
               ratings := Some (upsert_ratings ratings_data t) |} in
  try_except
    (cursor_executemany false (insert_rating_query ratings_data);;
     conn_commit;;
     mret (total_inserted + Z.of_nat (length ratings_data)))
    is_mysql_Error
    (fun _ => try_except conn_rollback any_exn (fun _ => mret tt);; mret total_inserted) st
  = (Ok (total_inserted + Z.of_nat (length ratings_data)),
     with_db_committed d'
       (with_trace (EvCommit :: EvSql (insert_rating_query ratings_data) :: trace st)
          (with_db d' st))).
Proof.
  intros H0' H1 Hr d'.
  unfold cursor_executemany, conn_commit.
  unfold mbind, M_bind, try_except, emit, modify, gets, tick, mret, M_ret, raise.
  simpl. rewrite H0'. simpl. rewrite Hr. simpl. rewrite H1. simpl. done.
Qed.

(** A chunk that the server refuses, while the rollback works. *)
Lemma ratings_chunk_refused unstorable ratings_data total_inserted st :
  mysql_fails (length (trace st)) = true \/ ratings (db st) = None \/ unstorable = true ->
  mysql_fails (S (length (trace st))) = false ->
  try_except
    (cursor_executemany unstorable (insert_rating_query ratings_data);;
     conn_commit;;
     mret (total_inserted + Z.of_nat (length ratings_data)))
    is_mysql_Error
    (fun _ => try_except conn_rollback any_exn (fun _ => mret tt);; mret total_inserted) st
  = (Ok total_inserted,
     with_db (db_committed st)
       (with_trace (EvRollback :: EvSql (insert_rating_query ratings_data) :: trace st) st)).
Proof.
  intros H0' H1.
  unfold cursor_executemany, conn_rollback.
  unfold mbind, M_bind, try_except, emit, modify, gets, tick, mret, M_ret, raise.
  simpl.
  assert ((if mysql_fails (length (trace st)) || unstorable then None
           else match ratings (db st) with
                | Some t => Some {| movies := movies (db st);
                                    ratings := Some (foldl (fun t r => upsert_rating r t)
                                                       t ratings_data) |}
                | None => None
                end) = None) as ->.
  { destruct H0' as [->|[->| ->]]; [done|by case_match|by rewrite orb_true_r]. }
  simpl. rewrite H1. done.
Qed.

Lemma ratings_loop_cons chunk chunks total_inserted st :
  omap rating_row chunk <> [] ->
  ratings_loop (chunk :: chunks) total_inserted st
  = (total_inserted' ←
       try_except
         (cursor_executemany (existsb unstorable_row chunk)
            (insert_rating_query (omap rating_row chunk));;
          conn_commit;;
          mret (total_inserted + Z.of_nat (length (omap rating_row chunk))))
         is_mysql_Error
         (fun _ => try_except conn_rollback any_exn (fun _ => mret tt);;
                   mret total_inserted);
     ratings_loop chunks total_inserted') st.
Proof. intros Hne. simpl. by destruct (omap rating_row chunk). Qed.

Lemma ratings_loop_sent chunk chunks total_inserted st :
  existsb unstorable_row chunk = true ->
  ratings_loop (chunk :: chunks) total_inserted st
  = (total_inserted' ←
       try_except
         (cursor_executemany true (insert_rating_query (omap rating_row chunk));;
          conn_commit;;
          mret (total_inserted + Z.of_nat (length (omap rating_row chunk))))
         is_mysql_Error
         (fun _ => try_except conn_rollback any_exn (fun _ => mret tt);;
                   mret total_inserted);
     ratings_loop chunks total_inserted') st.
Proof. intros Hu. simpl. rewrite Hu. by rewrite andb_false_r. Qed.

Lemma ratings_loop_all chunks total_inserted st t :
  (forall n, mysql_fails n = false) ->
  Forall (fun chunk => existsb unstorable_row chunk = false) chunks ->
  ratings (db st) = Some t ->
  let rows := omap rating_row (concat chunks) in
  let run := ratings_loop chunks total_inserted st in
  run.1 = Ok (total_inserted + Z.of_nat (length rows)) /\
  ratings (db run.2) = Some (upsert_ratings rows t) /\
  movies (db run.2) = movies (db st) /\
  (rows = [] -> run.2 = st) /\
  (rows <> [] -> db_committed run.2 = db run.2).
Proof.
  intros Hf Hs. revert total_inserted st t.
  induction Hs as [|chunk chunks Hu Hs IH]; intros total_inserted st t Hr; cbv zeta.
  { simpl. split_and!; try done. f_equal. lia. }
  cbn [concat]. rewrite omap_app.
  destruct (omap rating_row chunk) as [|r ratings_data] eqn:Ed.
  - simpl. rewrite Ed, Hu. apply IH. done.
  - set (d' := {| movies := movies (db st);
                  ratings := Some (upsert_ratings (r :: ratings_data) t) |}).
    set (st1 := with_db_committed d'
                  (with_trace (EvCommit :: EvSql (insert_rating_query (r :: ratings_data))
                                 :: trace st) (with_db d' st))).
    assert (Hrun : ratings_loop (chunk :: chunks) total_inserted st
                   = ratings_loop chunks
                       (total_inserted + Z.of_nat (length (r :: ratings_data))) st1).
    { rewrite ratings_loop_cons by by rewrite Ed. rewrite Ed, Hu.
      unfold mbind at 1, M_bind at 1.
      by rewrite (ratings_chunk_ok _ _ _ t). }
    rewrite Hrun.
    destruct (IH (total_inserted + Z.of_nat (length (r :: ratings_data))) st1
                (upsert_ratings (r :: ratings_data) t) eq_refl)
      as (A & B & C & D & E).
    split_and!.
    + rewrite A. f_equal. rewrite length_app. lia.
    + rewrite B. unfold upsert_ratings. by rewrite foldl_app.
    + by rewrite C.
    + done.
    + intros _. destruct (omap rating_row (concat chunks)) eqn:Er.
      * by rewrite D.
      * by apply E.
Qed.
End Ratings_import.

(** X14.  With a server that fails nothing, a ratings table in place and
    a file in which no rating that converts is nan or infinite, the
    import of the ratings returns the number of good rows of the file
    and leaves the table that the upsert of these rows, in the order of
    the file, gives: the bad rows (a conversion raises) are dropped, the
    cut into chunks does not matter, the movies are not touched, and all
    of it is committed. *)
Theorem ratings_import_complete `{World} (chunks : list (list rating_csv_row))
    (total_inserted : Z) (st : state) (t : gmap (Z * Z) rating) :
  (forall n, mysql_fails n = false) ->
  Forall (fun chunk => existsb unstorable_row chunk = false) chunks ->
  ratings (db st) = Some t ->
  let rows := omap rating_row (concat chunks) in
  let run := ratings_loop chunks total_inserted st in
  run.1 = Ok (total_inserted + Z.of_nat (length rows)) /\
  ratings (db run.2) = Some (upsert_ratings rows t) /\
  movies (db run.2) = movies (db st) /\
  (rows <> [] -> db_committed run.2 = db run.2).
Proof.
  intros Hf Hs Hr rows run.
  destruct (ratings_loop_all chunks total_inserted st t Hf Hs Hr) as (A & B & C & _ & E).
  done.
Qed.

Lemma ratings_import_witness :
  let run := ratings_loop (H0:=healthy_world [] (Some sample_chunks)) sample_chunks 0
               (initial_state None empty_db) in
  run.1 = Ok 3 /\
  ratings (db_committed run.2)
  = Some (upsert_ratings [(1, 1, (4 # 1)%Q, Some 964982703); (1, 1, (9 # 2)%Q, None);
                          (2, 1, (3 # 1)%Q, Some 964982224)] ∅).
Proof.
  intros run. subst run.
  destruct (ratings_import_complete (H:=healthy_world [] (Some sample_chunks))
              sample_chunks 0 (initial_state None empty_db) ∅) as (A & B & _ & C);
    [done|by repeat constructor|done|].
  split; [exact A|]. rewrite (C ltac:(done)). exact B.
Defined.

(** X15.  A chunk that the server refuses (the statement fails, or there
    is no ratings table) is skipped when the rollback works: none of its
    rows is counted, the import goes on with the next chunk, and the
    tables are back to what was last committed, so that the movies
    upserted since the last commit are lost with it. *)
Theorem refused_chunk_is_rolled_back `{World} (chunk : list rating_csv_row)
    (chunks : list (list rating_csv_row)) (total_inserted : Z) (st : state) :
  omap rating_row chunk <> [] ->
  mysql_fails (length (trace st)) = true \/ ratings (db st) = None ->
  mysql_fails (S (length (trace st))) = false ->
  exists st1,
    ratings_loop (chunk :: chunks) total_inserted st
    = ratings_loop chunks total_inserted st1 /\
    db st1 = db_committed st /\
    db_committed st1 = db_committed st /\
    trace st1
    = EvRollback :: EvSql (insert_rating_query (omap rating_row chunk)) :: trace st.
Proof.
  intros Hne H0' H1. eexists. split.
  - rewrite ratings_loop_cons by done. unfold mbind at 1, M_bind at 1.
    rewrite ratings_chunk_refused by (destruct H0'; auto). reflexivity.
  - done.
Qed.

Lemma refused_chunk_witness :
  let W : World :=
    {| OMDB_API_KEY := None; omdb := nothing_found; sleep_interrupted := fun _ => false;
       clock := fun _ => py "20240101000000"; connect := None;
       mysql_fails := fun _ => false;
       save_fails := fun _ => false; movies_csv := Some [toy_story];
       ratings_csv := Some sample_chunks;
       save_truncates := fun _ => false; movies_csv_raises := None;
       ratings_csv_raises := None; ratings_chunks_raise := None |} in
  let no_table := {| movies := ∅; ratings := None |} in
  let st := with_db {| movies := upsert_movie 1 (PyStr (py "Toy Story (1995)"))
                                   (PyStr (py "Animation")) ∅;
                       ratings := None |} (initial_state None no_table) in
  exists st1,
    ratings_loop (H0:=W) sample_chunks 0 st = ratings_loop (H0:=W) (drop 1 sample_chunks) 0 st1 /\
    movies (db st1) = ∅.
Proof.
  intros W no_table st.
  destruct (refused_chunk_is_rolled_back (H:=W)
              [ {| r_userId := Some 1; r_movieId := Some 1; r_rating := FloatFinite (4 # 1)%Q;
                   r_timestamp := Some 964982703 |};
                {| r_userId := Some 1; r_movieId := Some 2; r_rating := FloatRaises;
                   r_timestamp := Some 964981247 |} ]
              (drop 1 sample_chunks) 0 st) as (st1 & A & B & _);
    [done|by right|done|].
  exists st1. split; [exact A|]. by rewrite B.
Defined.

(** X25.  A row whose rating converts to nan or to an infinity is no bad
    row: its chunk is sent, even when it has no other good row; the
    server refuses it, and when the rollback works the chunk is skipped
    as a whole, the good rows with it: none of its rows is counted, the
    import goes on with the next chunk, and the tables are back to what
    was last committed. *)
Theorem nonfinite_rating_refuses_chunk `{World} (chunk : list rating_csv_row)
    (chunks : list (list rating_csv_row)) (total_inserted : Z) (st : state) :
  existsb unstorable_row chunk = true ->
  mysql_fails (S (length (trace st))) = false ->
  exists st1,
    ratings_loop (chunk :: chunks) total_inserted st
    = ratings_loop chunks total_inserted st1 /\
    db st1 = db_committed st /\
    db_committed st1 = db_committed st /\
    trace st1
    = EvRollback :: EvSql (insert_rating_query (omap rating_row chunk)) :: trace st.
Proof.
  intros Hu H1. eexists. split.
  - rewrite ratings_loop_sent by done. unfold mbind at 1, M_bind at 1.
    rewrite ratings_chunk_refused by auto. reflexivity.
  - done.
Qed.

Lemma nonfinite_rating_witness :
  let W := healthy_world [] None in
  let chunk :=
    [ {| r_userId := Some 1; r_movieId := Some 1; r_rating := FloatFinite (4 # 1)%Q;
         r_timestamp := Some 964982703 |};
      {| r_userId := Some 1; r_movieId := Some 2; r_rating := FloatNonFinite;
         r_timestamp := Some 964981247 |} ] in
  let run := ratings_loop (H0:=W) [chunk] 0 (initial_state None empty_db) in
  run.1 = Ok 0 /\ ratings (db run.2) = ratings empty_db.
Proof.
  intros W chunk run.
  destruct (nonfinite_rating_refuses_chunk (H:=W) chunk [] 0 (initial_state None empty_db))
    as (st1 & A & B & _); [done|done|].
  subst run. rewrite A. simpl. split; [done|]. by rewrite B.
Defined.

(** ** The loop over the movies *)

(** X16.  An interrupt of the loop over the movies ends the run in order:
    [main] returns, after exactly one save of the cache, one commit and
    the closing of the connection; the ratings are not imported; the
    cache file holds the cache when the write succeeds; when it fails,
    the file is as it was if it could not be opened and is truncated if
    the failure came after it was opened; the tables of the moment are
    committed unless the commit fails. *)
Theorem interrupt_saves_partial_work `{Unicode} `{World} (limit : option Z)
    (no_enrich : bool) (rows : list movie_csv_row) (total enriched_count : Z)
    (st st1 : state) :
  movie_loop limit no_enrich rows total enriched_count st = (Raise KeyboardInterrupt, st1) ->
  let run := main_from_movies limit no_enrich rows total enriched_count st in
  run.1 = Ok tt /\
  trace run.2 = EvClose :: EvCommit :: EvSaveCache :: trace st1 /\
  cache_file run.2
  = (if save_fails (length (trace st1)) then
       if save_truncates (length (trace st1)) then None else cache_file st1
     else Some (cache st1)) /\
  db_committed run.2
  = (if mysql_fails (S (length (trace st1))) then db_committed st1 else db st1) /\
  db run.2 = db_committed run.2.
Proof.
  intros Hloop. cbv zeta. unfold main_from_movies.
  unfold mbind, M_bind, try_except. rewrite Hloop. simpl.
  unfold on_interrupt, save_cache, conn_commit, close_quietly.
  unfold mbind, M_bind, try_finally, try_except, emit, modify, gets, tick, mret, M_ret, raise.
  simpl. destruct (save_fails _); [destruct (save_truncates _)|]; simpl;
    destruct (mysql_fails _); simpl; done.
Qed.

Lemma interrupt_witness :
  let W := calm_world interrupted [toy_story] in
  let run := main_from_movies (H:=latin1) (H0:=W) None false [toy_story] 0 0
               (initial_state None empty_db) in
  run.1 = Ok tt /\
  db_committed run.2
  = {| movies := upsert_movie 1 (PyStr (py "Toy Story (1995)")) (PyStr (py "Animation")) ∅;
       ratings := Some ∅ |}.
Proof.
  intros W run.
  destruct (interrupt_saves_partial_work (H:=latin1) (H0:=W) None false [toy_story] 0 0
              (initial_state None empty_db)
              (movie_loop (H:=latin1) (H0:=W) None false [toy_story] 0 0
                 (initial_state None empty_db)).2) as (A & _ & _ & B & _);
    [reflexivity|].
  split; [exact A|exact B].
Defined.



Lemma limited_cons {A} limit total (x : A) l :
  limit_reached limit total = false ->
  limited limit total (x :: l) = x :: limited limit (total + 1) l.
Proof.
  destruct limit as [n|]; simpl; [|done]. intros Hn%bool_decide_eq_false.
  replace (Z.to_nat (n - total)) with (S (Z.to_nat (n - (total + 1)))) by lia. done.
Qed.


Section Offline.
Context `{Unicode} `{World}.



End Offline.






(** *** The limit of rows *)

Lemma upsert_free_preorder : PreOrder upsert_free.
Proof.
  split.
  - intros st. by exists [].
  - intros a b c (e1 & A1 & A2) (e2 & B1 & B2). exists (e2 ++ e1).
    by rewrite B1, A1, app_assoc, movie_upserts_app, A2, B2.
Qed.

Lemma cache_kept_preorder : PreOrder cache_kept.
Proof.
  split.
  - by intros st.
  - intros a b c [A1 A2] [B1 B2]. split; congruence.
Qed.

#[local] Existing Instance upsert_free_preorder.
#[local] Existing Instance cache_kept_preorder.

Lemma does_relax {A} (R R' : state -> state -> Prop) (E E' : exn -> Prop) (m : M A) :
  (forall st st', R st st' -> R' st st') -> (forall e, E e -> E' e) ->
  does R E m -> does R' E' m.
Proof.
  intros HR HE Hm st. eapply wp_mono; [apply Hm|]. intros r st' [R1 E1].
  split; [by apply HR|]. intros e He. apply HE. by apply E1.
Qed.

Lemma quiet_upsert_free st st' : quiet_step st st' -> upsert_free st st'.
Proof. intros (_ & _ & evs & Ht & _ & Hu). by exists evs. Qed.

Lemma service_upsert_free st st' : service_step st st' -> upsert_free st st'.
Proof.
  intros (_ & _ & _ & evs & Ht & Hs). exists evs. split; [done|].
  clear Ht. induction evs as [|e evs IH]; [done|].
  simpl in Hs. apply andb_true_iff in Hs as [He Hs].
  destruct e; try done; simpl; by apply IH.
Qed.

Section Limit.
Context `{Unicode} `{World}.

(** Whatever happens, what the body of the loop returns has [total]
    increased by one. *)
Lemma load_movie_total no_enrich movieId title genres total enriched_count st :
  wp (load_movie no_enrich movieId title genres total enriched_count)
     (fun r _ => forall counts, r = Ok counts -> counts.1 = total + 1) st.
Proof.
  unfold load_movie. apply wp_bind. eapply wp_mono; [apply wp_any|].
  intros [[]|e] st1 _; [|done].
  apply wp_bind. eapply wp_mono; [apply wp_any|].
  intros [enriched|e] st2 _; [|done].
  apply wp_bind. eapply wp_mono; [apply wp_any|].
  intros [enriched_count'|e] st3 _; [|done].
  unfold save_cache. repeat wp_step; by intros ? [= <-].
Qed.

(** The body of the loop sends the base upsert of its movie, and no
    other. *)
Lemma load_movie_one_upsert no_enrich movieId title genres total enriched_count st :
  wp (load_movie no_enrich movieId title genres total enriched_count)
     (fun _ st' => exists later,
        trace st' = later ++ EvSql (insert_movie_query movieId title genres) :: trace st /\
        movie_upserts later = []) st.
Proof.
  unfold load_movie. apply wp_bind, wp_try_except. unfold cursor_execute at 1.
  apply wp_bind, wp_gets. apply wp_bind, wp_modify. apply wp_bind, wp_gets.
  assert (Hrest : forall st1 (Rest : M (Z * Z)),
            does upsert_free anything Rest ->
            trace st1 = EvSql (insert_movie_query movieId title genres) :: trace st ->
            wp Rest
               (fun _ st' => exists later,
                  trace st' = later ++ EvSql (insert_movie_query movieId title genres)
                                :: trace st /\
                  movie_upserts later = []) st1).
  { intros st1 Rest HR Ht. eapply wp_mono; [apply HR|].
    intros r st' [(evs & Hev & Hu) _]. exists evs. by rewrite Hev, Ht. }
  assert (Hquiet : forall A (m : M A) E, does quiet_step E m -> does upsert_free anything m).
  { intros A m E. by apply does_relax; [apply quiet_upsert_free|]. }
  assert (Hafter : does upsert_free anything
            (enriched ← (if negb no_enrich then
                           try_except (enrich_movie title) is_Exception
                             (fun _ => mret None)
                         else mret None);
             enriched_count ←
               match enriched with
               | Some e =>
                   try_except
                     (cursor_execute (update_enrichment_query e movieId);;
                      let enriched_count := enriched_count + 1 in
                      (if enriched_count mod 50 =? 0 then
                         try_except conn_commit is_Exception (fun _ => mret tt)
                       else mret tt);;
                      mret enriched_count)
                     is_mysql_Error (fun _ => mret enriched_count)
               | None => mret enriched_count
               end;
             let total := total + 1 in
             (if total mod 100 =? 0 then save_cache else mret tt);;
             mret (total, enriched_count))).
  { repeat first
      [ apply (does_relax service_step upsert_free anything anything);
          [apply service_upsert_free|done|apply enrich_movie_service]
      | apply (Hquiet _ _ (only MysqlError)), cursor_execute_does; reflexivity
      | apply (Hquiet _ _ (only MysqlError)), conn_commit_does
      | apply (Hquiet _ _ anything), save_cache_does
      | does_step
      | progress cbv zeta ]. }
  destruct (if mysql_fails _ then None else run_statement _ _) as [d'|].
  - simpl is_ddl. cbv iota. apply wp_modify. by apply Hrest.
  - apply wp_raise. simpl is_mysql_Error. cbv iota. apply wp_ret. by apply Hrest.
Qed.

Lemma movie_loop_bounded limit no_enrich rows total enriched_count st :
  wp (movie_loop limit no_enrich rows total enriched_count)
     (fun _ st' => exists evs ids,
        trace st' = evs ++ trace st /\
        movie_upserts evs = reverse ids /\
        ids `prefix_of` limited limit total (omap row_movieId rows)) st.
Proof.
  revert total enriched_count st.
  induction rows as [|row rows IH]; intros total enriched_count st.
  { simpl. apply wp_ret. exists [], []. split_and!; try done. apply prefix_nil. }
  simpl movie_loop. apply wp_bind, wp_gets.
  destruct (RATE_LIMITED st).
  { apply wp_ret. exists [], []. split_and!; try done. apply prefix_nil. }
  destruct (limit_reached limit total) eqn:Hl.
  { apply wp_ret. exists [], []. split_and!; try done. apply prefix_nil. }
  cbn [omap list_omap]. destruct (row_movieId row) as [movieId|]; [|apply IH].
  rewrite limited_cons by done.
  apply wp_bind.
  eapply wp_mono; [apply wp_conj; [apply load_movie_one_upsert|apply load_movie_total]|].
  intros r st1 [(later & Ht1 & Hu1) Htot].
  set (ins := EvSql (insert_movie_query movieId (row_title row) (row_genres row))) in *.
  destruct r as [counts|e].
  - rewrite (Htot counts eq_refl).
    eapply wp_mono; [apply IH|]. intros r st2 (evs & ids & Ht2 & Hu2 & Hp).
    exists (evs ++ later ++ [ins]), (movieId :: ids). split_and!.
    + by rewrite Ht2, Ht1, <- !app_assoc.
    + rewrite !movie_upserts_app, Hu1, Hu2. by rewrite reverse_cons.
    + by apply prefix_cons.
  - exists (later ++ [ins]), [movieId]. split_and!.
    + by rewrite Ht1, <- app_assoc.
    + by rewrite movie_upserts_app, Hu1.
    + apply prefix_cons, prefix_nil.
Qed.
End Limit.

(** X18.  In any run, with or without enrichment and whatever fails or
    interrupts it, the base upserts sent are, in the order of the file,
    those of the first rows whose [movieId] is an integer: the run may
    stop early, but up to where it stops it sends one upsert for each
    such row and no other; with a limit of rows it sends at most as many
    as the limit leaves. *)
Theorem upserts_follow_the_file `{Unicode} `{World} (limit : option Z)
    (no_enrich : bool) (rows : list movie_csv_row) (total enriched_count : Z)
    (st : state) :
  let st' := (main_from_movies limit no_enrich rows total enriched_count st).2 in
  exists ids,
    movie_upserts (trace st') = reverse ids ++ movie_upserts (trace st) /\
    ids `prefix_of` limited limit total (omap row_movieId rows) /\
    (forall n, limit = Some n -> Z.of_nat (length ids) <= Z.max 0 (n - total)).
Proof.
  cbv zeta.
  set (Q := fun st' : state => exists ids,
              movie_upserts (trace st') = reverse ids ++ movie_upserts (trace st) /\
              ids `prefix_of` limited limit total (omap row_movieId rows)).
  assert (Hquiet : forall st1 st2, Q st1 -> quiet_step st1 st2 -> Q st2).
  { intros st1 st2 (ids & Hu & Hp) (_ & _ & evs & Ht & _ & Hu2).
    exists ids. by rewrite Ht, movie_upserts_app, Hu2. }
  assert (HQ : wp (main_from_movies limit no_enrich rows total enriched_count)
                 (fun _ st' => Q st') st).
  { unfold main_from_movies. apply wp_bind, wp_try_except, wp_bind.
    eapply wp_mono; [apply movie_loop_bounded|].
    intros r st1 (evs & ids & Ht & Hu & Hp).
    assert (Q1 : Q st1) by (exists ids; by rewrite Ht, movie_upserts_app, Hu).
    destruct r as [counts|e].
    - apply wp_ret. simpl negb. cbv iota.
      eapply wp_mono; [apply after_movies_does|]. intros r st2 [R2 _]. by eapply Hquiet.
    - destruct (is_KeyboardInterrupt e); [|done].
      apply wp_bind. eapply wp_mono; [apply on_interrupt_does|].
      intros [[]|e'] st2 [R2 _]; [|by eapply Hquiet].
      apply wp_ret. simpl negb. cbv iota. apply wp_ret. by eapply Hquiet. }
  destruct HQ as (ids & Hu & Hp). exists ids. split_and!; [done..|].
  intros n ->. apply prefix_length in Hp. simpl in Hp. rewrite length_take in Hp. lia.
Qed.

(** *** The end of a run *)

Section Cache_kept.
Context `{World}.

Lemma cursor_execute_cache_kept q : does cache_kept anything (cursor_execute q).
Proof.
  intros st. unfold cursor_execute, cache_kept. repeat wp_step; simpl; done.
Qed.

Lemma cursor_executemany_cache_kept unstorable q :
  does cache_kept anything (cursor_executemany unstorable q).
Proof.
  intros st. unfold cursor_executemany, cache_kept. repeat wp_step; simpl; done.
Qed.

Lemma conn_commit_cache_kept : does cache_kept anything conn_commit.
Proof. intros st. unfold conn_commit, cache_kept. repeat wp_step; simpl; done. Qed.

Lemma conn_rollback_cache_kept : does cache_kept anything conn_rollback.
Proof. intros st. unfold conn_rollback, cache_kept. repeat wp_step; simpl; done. Qed.

Lemma close_quietly_cache_kept : does cache_kept anything close_quietly.
Proof. intros st. unfold close_quietly, cache_kept. repeat wp_step; simpl; done. Qed.

Lemma ratings_loop_cache_kept chunks total_inserted :
  does cache_kept anything (ratings_loop chunks total_inserted).
Proof.
  revert total_inserted.
  induction chunks as [|chunk chunks IH]; intros total_inserted; simpl.
  { apply does_ret. }
  destruct (bool_decide _ && negb _); [apply IH|].
  repeat first [ apply IH | apply cursor_executemany_cache_kept | apply conn_commit_cache_kept
               | apply conn_rollback_cache_kept | does_step ].
Qed.

(** What follows the last save of the cache, in a run that ends in
    order and in one that is interrupted. *)
Lemma saved_cache_stays (rest : M unit) st :
  does cache_kept anything rest ->
  save_fails (length (trace st)) = false ->
  wp (save_cache;; rest) (fun _ st' => cache_file st' = Some (cache st')) st.
Proof.
  intros Hrest Hs. unfold save_cache.
  apply wp_bind, wp_bind, wp_gets, wp_bind, wp_modify. simpl. rewrite Hs.
  apply wp_modify. eapply wp_mono; [apply Hrest|].
  intros r st' [[C1 C2] _]. by rewrite C1, C2.
Qed.
End Cache_kept.

(** X19.  When the cache file can be written, a run ends with the cache
    on file: whether the loop over the movies ends in order or is
    interrupted, the cache file then holds exactly the cache of the end
    of the run, misses included. *)
Theorem cache_saved_at_end `{Unicode} `{World} (limit : option Z) (no_enrich : bool)
    (rows : list movie_csv_row) (total enriched_count : Z) (st : state) :
  (forall n, save_fails n = false) ->
  let st' := (main_from_movies limit no_enrich rows total enriched_count st).2 in
  cache_file st' = Some (cache st').
Proof.
  intros Hs.
  change (wp (main_from_movies limit no_enrich rows total enriched_count)
            (fun _ st' => cache_file st' = Some (cache st')) st).
  unfold main_from_movies. apply wp_bind, wp_try_except, wp_bind.
  eapply wp_mono; [apply movie_loop_does|]. intros r st1 [_ He].
  destruct r as [counts|e].
  - apply wp_ret. simpl negb. cbv iota. unfold after_movies.
    apply saved_cache_stays; [|done].
    repeat first [ apply ratings_loop_cache_kept | apply conn_commit_cache_kept
                 | apply close_quietly_cache_kept | does_step ].
  - rewrite (He e eq_refl). simpl is_KeyboardInterrupt. cbv iota.
    unfold on_interrupt.
    assert (Hend : does cache_kept anything
              (try_finally (try_except conn_commit is_Exception (fun _ => mret tt))
                 close_quietly)).
    { repeat first [ apply conn_commit_cache_kept | apply close_quietly_cache_kept
                   | does_step ]. }
    apply wp_bind. eapply wp_mono; [by apply (saved_cache_stays _ _ Hend)|].
    intros [[]|e'] st2 Hc; [|done]. apply wp_ret. simpl negb. cbv iota. by apply wp_ret.
Qed.

Lemma cache_saved_witness :
  let W := calm_world nothing_found [toy_story] in
  let st' := (main_from_movies (H:=latin1) (H0:=W) None false [toy_story] 0 0
                (initial_state None empty_db)).2 in
  cache_file st' = Some (cache st') /\ cache st' = {[ py "Toy Story__1995" := None ]}.
Proof.
  intros W st'. split; [|reflexivity].
  by apply (cache_saved_at_end (H:=latin1) (H0:=W)).
Defined.

(** *** A run without enrichment on a server that fails nothing *)


Section Plain_import.
Context `{Unicode} `{World}.
Hypothesis healthy : forall n, mysql_fails n = false.


End Plain_import.





Lemma recreate_cache_kept `{World} :
  does cache_kept anything recreate_ratings_table_if_requested.
Proof.
  unfold recreate_ratings_table_if_requested.
  repeat first [ apply cursor_execute_cache_kept | apply conn_commit_cache_kept
               | does_step ].
Qed.

(** X22.  The ratings table is recreated before [movies.csv] is looked
    for: a run with [--recreate-ratings] and without the file still
    leaves an empty ratings table, committed, and then closes the
    connection without loading anything. *)
Theorem recreation_precedes_file_check `{Unicode} `{World} (limit : option Z)
    (no_enrich : bool) (st : state) :
  connect = None ->
  movies_csv = None ->
  (forall n, mysql_fails n = false) ->
  let run := main limit no_enrich true st in
  run.1 = Ok tt /\
  ratings (db_committed run.2) = Some ∅ /\
  movies (db_committed run.2) = movies (db st) /\
  movie_upserts (trace run.2) = movie_upserts (trace st) /\
  cache run.2 = cache st /\ cache_file run.2 = cache_file st.
Proof.
  intros Hconn Hcsv Hf run. subst run.
  assert (Hm : main limit no_enrich true st
               = (recreate_ratings_table_if_requested;; close_quietly) st).
  { unfold main, mysql_connect. rewrite Hconn, Hcsv. reflexivity. }
  rewrite Hm.
  set (P := fun (r : result unit) (st' : state) =>
              r = Ok tt /\ ratings (db_committed st') = Some ∅ /\
              movies (db_committed st') = movies (db st) /\
              movie_upserts (trace st') = movie_upserts (trace st) /\
              cache st' = cache st /\ cache_file st' = cache_file st).
  change (wp (recreate_ratings_table_if_requested;; close_quietly) P st).
  apply wp_bind.
  eapply wp_mono;
    [apply wp_conj; [by apply recreate_fresh|apply wp_conj;
       [apply recreate_ratings_does|apply recreate_cache_kept]]|].
  intros r st1 [(-> & Hr & Hm' & Hc) [[(_ & _ & evs & Ht & _ & Hu) _] [[C1 C2] _]]].
  unfold close_quietly, P. repeat wp_step. simpl.
  rewrite Hc, Hr, Hm', Ht, movie_upserts_app, Hu. done.
Qed.

Lemma recreation_witness :
  let W' : World :=
    {| OMDB_API_KEY := None; omdb := nothing_found; sleep_interrupted := fun _ => false;
       clock := fun _ => py "20240101000000"; connect := None;
       mysql_fails := fun _ => false; save_fails := fun _ => false;
       movies_csv := None; ratings_csv := None;
       save_truncates := fun _ => false; movies_csv_raises := None;
       ratings_csv_raises := None; ratings_chunks_raise := None |} in
  let d := {| movies := ∅;
              ratings := Some {[ (1, 1) := {| rt_rating := (3 # 1)%Q;
                                              rt_timestamp := None |} ]} |} in
  let run := main (H:=latin1) (H0:=W') None false true (initial_state None d) in
  run.1 = Ok tt /\ ratings (db_committed run.2) = Some ∅.
Proof.
  intros W' d run.
  destruct (recreation_precedes_file_check (H:=latin1) (H0:=W') None false
              (initial_state None d)) as (A & B & _); [done..|].
  split; [exact A|exact B].
Defined.

(** *** The periodic commit and the periodic save *)

(** X23.  On a server that fails nothing and with a cache file that can
    be written, the body of the loop for one movie returns with [total]
    increased by one and [enriched_count] by one at most; when
    [enriched_count] reaches a multiple of 50 everything is committed,
    and when [total] reaches a multiple of 100 the cache is on file. *)
Theorem periodic_commit_and_save `{Unicode} `{World} (no_enrich : bool) (movieId : Z)
    (title genres : pyobj) (total enriched_count : Z) (st : state) :
  (forall n, mysql_fails n = false) ->
  (forall n, save_fails n = false) ->
  let run := load_movie no_enrich movieId title genres total enriched_count st in
  forall total' enriched_count',
    run.1 = Ok (total', enriched_count') ->
    total' = total + 1 /\
    (enriched_count' = enriched_count \/ enriched_count' = enriched_count + 1) /\
    (enriched_count' = enriched_count + 1 -> enriched_count' mod 50 = 0 ->
     db_committed run.2 = db run.2) /\
    (total' mod 100 = 0 -> cache_file run.2 = Some (cache run.2)).
Proof.
  intros Hf Hs run. subst run.
  change (wp (load_movie no_enrich movieId title genres total enriched_count)
            (fun r st' => forall total' enriched_count',
               r = Ok (total', enriched_count') ->
               total' = total + 1 /\
               (enriched_count' = enriched_count \/ enriched_count' = enriched_count + 1) /\
               (enriched_count' = enriched_count + 1 -> enriched_count' mod 50 = 0 ->
                db_committed st' = db st') /\
               (total' mod 100 = 0 -> cache_file st' = Some (cache st'))) st).
  unfold load_movie. apply wp_bind. eapply wp_mono; [apply wp_any|].
  intros [[]|e] st1 _; [|done].
  apply wp_bind. eapply wp_mono; [apply wp_any|].
  intros [enriched|e] st2 _; [|done].
  unfold cursor_execute, conn_commit, save_cache.
  repeat wp_step; simpl in *; rewrite ?Hf, ?Hs in *; simplify_eq/=; try done.
  all: intros ? ? [= <- <-].
  all: repeat match goal with
         | Hx : (_ =? _) = true |- _ => apply Z.eqb_eq in Hx
         | Hx : (_ =? _) = false |- _ => apply Z.eqb_neq in Hx
         end.
  all: split_and!; auto; try done; try lia.
Qed.

Lemma periodic_witness :
  let W := calm_world found [] in
  let run := load_movie (H:=latin1) (H0:=W) false 1 (PyStr (py "Toy Story (1995)"))
               (PyStr (py "Animation")) 99 49 (initial_state None empty_db) in
  run.1 = Ok (100, 50) /\ db_committed run.2 = db run.2 /\
  cache_file run.2 = Some (cache run.2).
Proof.
  intros W run.
  destruct (periodic_commit_and_save (H:=latin1) (H0:=W) false 1
              (PyStr (py "Toy Story (1995)")) (PyStr (py "Animation")) 99 49
              (initial_state None empty_db) ltac:(done) ltac:(done) 100 50 eq_refl)
    as (_ & _ & A & B).
  split; [reflexivity|]. split; [by apply A|by apply B].
Defined.

(** *** The enrichment record *)

Lemma na_to_None_placeholder v : na_to_None v <> JStr (py "N/A").
Proof.
  unfold na_to_None. destruct (is_None v || eq_str v (py "N/A")) eqn:E; [done|].
  intros ->. apply orb_false_iff in E as [_ E]. unfold eq_str in E.
  by rewrite bool_decide_eq_true_2 in E.
Qed.

(** The fields of the record that [build_enriched] returns. *)
Lemma build_enriched_fields `{Unicode} `{World} (data : json) (year0 : option Z)
    (st st' : state) (e : enrichment) :
  build_enriched data year0 st = (Ok e, st') ->
  raw e = data /\
  py_get data (py "imdbID") = Ok (imdb_id e) /\
  enriched_at e = clock (length (trace st)) /\
  director e <> JStr (py "N/A") /\
  plot e <> JStr (py "N/A") /\
  box_office e <> JStr (py "N/A") /\
  (py_get data (py "Year") = Ok JNull -> year e = year0) /\
  (forall s, py_get data (py "Year") = Ok (JStr s) ->
     year e = if str_isdigit s then py_int s else year0).
Proof.
  unfold build_enriched, mbind, M_bind, lift, tick, gets, mret, M_ret.
  destruct (py_get data (py "Director")) as [v1|]; [|done].
  destruct (py_get data (py "Plot")) as [v2|]; [|done].
  destruct (py_get data (py "BoxOffice")) as [v3|]; [|done].
  destruct (py_get data (py "Year")) as [v4|]; [|done].
  destruct (year_of v4 year0) as [y|] eqn:Hy; [|done].
  destruct (py_get data (py "imdbID")) as [v5|]; [|done].
  intros [= <- <-]. simpl.
  split_and!; try done; try apply na_to_None_placeholder.
  - intros [= ->]. simpl in Hy. congruence.
  - intros s [= ->]. simpl in Hy. destruct (str_isdigit s); [|congruence].
    destruct (py_int s); congruence.
Qed.

(** X24.  The record that [enrich_movie] returns for a title that was
    not in the cache is built from the final answer of its queries,
    which is truthy: the answer is kept whole under [raw], the
    identifier is that of the answer, the time is that of the clock
    after the queries, and neither the director, the plot nor the box
    office is ever the placeholder ["N/A"]; the year is the one
    extracted from the title whenever the answer has no [Year] or one
    that is not made of digits, and the number that [Year] writes when
    it is made of digits. *)
Theorem enrichment_record_fields `{Unicode} `{World} (title : pyobj) (st : state)
    (e : enrichment) :
  let year0 := extract_year_from_title title in
  let clean_title := clean_title_for_query title in
  cache st !! cache_key clean_title year0 = None ->
  (enrich_movie title st).1 = Ok (Some e) ->
  exists data st1,
    enrich_movie_queries clean_title year0 st = (Ok data, st1) /\
    json_truthy data = true /\
    raw e = data /\
    py_get data (py "imdbID") = Ok (imdb_id e) /\
    enriched_at e = clock (length (trace st1)) /\
    director e <> JStr (py "N/A") /\
    plot e <> JStr (py "N/A") /\
    box_office e <> JStr (py "N/A") /\
    (py_get data (py "Year") = Ok JNull -> year e = year0) /\
    (forall s, py_get data (py "Year") = Ok (JStr s) ->
       year e = if str_isdigit s then py_int s else year0).
Proof.
  intros year0 clean_title Hc Hr.
  pose proof (enrich_movie_miss title st (Some e) Hc Hr) as Hv. cbv zeta in Hv.
  destruct (str_truthy OMDB_API_KEY); [|done].
  destruct Hv as (data & st1 & Hq & Ht & Hb).
  exists data, st1. split; [exact Hq|]. split; [exact Ht|].
  exact (build_enriched_fields data year0 st1 st1 e Hb).
Qed.

Lemma enrichment_record_witness :
  let W := calm_world found [] in
  let title := PyStr (py "Toy Story (1995)") in
  let e := {| director := JStr (py "John Lasseter"); plot := JNull; box_office := JNull;
              year := Some 1995; imdb_id := JStr (py "tt0114709"); raw := toy_story_data;
              enriched_at := py "2024-01-01T00:00:00+00:00" |} in
  (enrich_movie (H:=latin1) (H0:=W) title (initial_state None empty_db)).1 = Ok (Some e) /\
  plot e <> JStr (py "N/A").
Proof.
  intros W title e. split; [reflexivity|].
  destruct (enrichment_record_fields (H:=latin1) (H0:=W) title
              (initial_state None empty_db) e eq_refl eq_refl)
    as (data & st1 & _ & _ & _ & _ & _ & _ & B & _).
  exact B.
Defined.
